(** * go-fast-pdf: the text extractor, the content-stream parser and the
    page loader, embedded in Rocq.

    Conventions of the embedding.
    - Go's [float64] is the kernel's binary64 [float]; every arithmetic
      operation is rounded on its own, in the order the Go expression
      evaluates it (no fused multiply-add).
    - Go's [string] is a byte sequence: Rocq's [string] (a list of 8-bit
      [ascii]); [[]byte] is [list byte].
    - Go's [int] is [Z]; [map[K]V] is stdpp's [gmap K V]; a nil pointer or a
      nil interface value is [None].
    - A Go run-time panic (index out of range, failed type assertion) is the
      outcome [Panic]; an [error] return value is [Err]. *)

From Stdlib Require Import ZArith NArith String Ascii Strings.Byte.
From Stdlib Require Import Floats.PrimFloat Numbers.Cyclic.Int63.Uint63.
From Stdlib Require Import Floats.SpecFloat Floats.FloatOps.
From stdpp Require Import base option list gmap strings sorting.

Set Warnings "-inexact-float,-register-all".
Open Scope string_scope.

(** ** Outcomes of Go calls *)

(** A call that either returns or panics (no error value in its signature). *)
Inductive Exec (A : Type) : Type :=
  | Done (a : A)
  | Panic.
Arguments Done {A} a.
Arguments Panic {A}.

(** ** Object model (pkg/pdf objects) *)

Inductive Object : Type :=
  | NullObject
  | BooleanObject (b : bool)
  | NumberObject (n : float)
  | NameObject (s : string)
  | StringObject (s : string)
  | HexStringObject (bs : list byte)
  | ArrayObject (elems : list Object)
  | DictionaryObject (d : gmap string Object)
  | IndirectObject (ObjectNumber Generation : Z)
  | StreamObject (Dictionary : gmap string Object) (Data : list byte)
  | KeywordObject (s : string).

(** Operation: one operator with the operands that preceded it. *)
Record Operation : Type := mkOperation {
  Operator : string;
  Operands : list Object
}.

(** ** Matrices *)

(** [Matrix] is Go's [[6]float64]; [Mi] is the entry at index [i]. *)
Record Matrix : Type := mkMatrix {
  M0 : float; M1 : float; M2 : float; M3 : float; M4 : float; M5 : float
}.

Definition IdentityMatrix : Matrix := mkMatrix 1 0 0 1 0 0.

Definition Mult (a b : Matrix) : Matrix :=
  mkMatrix
    (M0 a * M0 b + M1 a * M2 b)
    (M0 a * M1 b + M1 a * M3 b)
    (M2 a * M0 b + M3 a * M2 b)
    (M2 a * M1 b + M3 a * M3 b)
    (M4 a * M0 b + M5 a * M2 b + M4 b)
    (M4 a * M1 b + M5 a * M3 b + M5 b).

(** ** Fonts, text state, extractor state *)

Record GraphicsState : Type := mkGraphicsState { CTM : Matrix }.

(** The ToUnicode map: uppercase-hex code string to decoded text. *)
Record CMap : Type := mkCMap { Map : gmap string string }.

Record Font : Type := mkFont {
  BaseFont : string;
  font_CMap : option CMap;          (* *CMap, nil when parsing failed *)
  Widths : gmap Z float;
  MissingW : float;
  SpaceWidth : float;
  IsCID : bool
}.

Record TextState : Type := mkTextState {
  ts_Font : option Font;            (* *Font, nil until a Tf selects one *)
  FontSize : float;
  CharSpacing : float;
  WordSpacing : float;
  Scale : float;
  Leading : float;
  Rise : float;
  TM : Matrix;
  TLM : Matrix
}.

Definition NewTextState : TextState :=
  mkTextState None 0 0 0 100 0 0 IdentityMatrix IdentityMatrix.

Record Extractor : Type := mkExtractor {
  page : gmap string Object;
  gState : GraphicsState;
  gStack : list GraphicsState;      (* a slice: the top is the last element *)
  textState : TextState;
  fonts : gmap string Font;
  lastX : float;
  lastY : float;
  buffer : string
}.

(** Field updates, one per assignment form used by the interpreter. *)
Definition set_gState (g : GraphicsState) (e : Extractor) : Extractor :=
  mkExtractor (page e) g (gStack e) (textState e) (fonts e)
              (lastX e) (lastY e) (buffer e).
Definition set_gStack (s : list GraphicsState) (e : Extractor) : Extractor :=
  mkExtractor (page e) (gState e) s (textState e) (fonts e)
              (lastX e) (lastY e) (buffer e).
Definition set_textState (t : TextState) (e : Extractor) : Extractor :=
  mkExtractor (page e) (gState e) (gStack e) t (fonts e)
              (lastX e) (lastY e) (buffer e).
Definition set_buffer (b : string) (e : Extractor) : Extractor :=
  mkExtractor (page e) (gState e) (gStack e) (textState e) (fonts e)
              (lastX e) (lastY e) b.
Definition set_last (x y : float) (e : Extractor) : Extractor :=
  mkExtractor (page e) (gState e) (gStack e) (textState e) (fonts e)
              x y (buffer e).

Definition set_Font (f : option Font) (t : TextState) : TextState :=
  mkTextState f (FontSize t) (CharSpacing t) (WordSpacing t) (Scale t)
              (Leading t) (Rise t) (TM t) (TLM t).
Definition set_FontSize (v : float) (t : TextState) : TextState :=
  mkTextState (ts_Font t) v (CharSpacing t) (WordSpacing t) (Scale t)
              (Leading t) (Rise t) (TM t) (TLM t).
Definition set_CharSpacing (v : float) (t : TextState) : TextState :=
  mkTextState (ts_Font t) (FontSize t) v (WordSpacing t) (Scale t)
              (Leading t) (Rise t) (TM t) (TLM t).
Definition set_WordSpacing (v : float) (t : TextState) : TextState :=
  mkTextState (ts_Font t) (FontSize t) (CharSpacing t) v (Scale t)
              (Leading t) (Rise t) (TM t) (TLM t).
Definition set_Scale (v : float) (t : TextState) : TextState :=
  mkTextState (ts_Font t) (FontSize t) (CharSpacing t) (WordSpacing t) v
              (Leading t) (Rise t) (TM t) (TLM t).
Definition set_Leading (v : float) (t : TextState) : TextState :=
  mkTextState (ts_Font t) (FontSize t) (CharSpacing t) (WordSpacing t)
              (Scale t) v (Rise t) (TM t) (TLM t).
Definition set_TM (m : Matrix) (t : TextState) : TextState :=
  mkTextState (ts_Font t) (FontSize t) (CharSpacing t) (WordSpacing t)
              (Scale t) (Leading t) (Rise t) m (TLM t).
Definition set_TLM (m : Matrix) (t : TextState) : TextState :=
  mkTextState (ts_Font t) (FontSize t) (CharSpacing t) (WordSpacing t)
              (Scale t) (Leading t) (Rise t) (TM t) m.

(** ** Helpers of the extractor *)

Definition number (o : Object) : float :=
  match o with
  | NumberObject n => n
  | _ => 0%float
  end.

(** [argsToMatrix] indexes [args[0..5]]; both call sites check
    [len(args) == 6] first, any shorter slice panics. *)
Definition argsToMatrix (args : list Object) : Exec Matrix :=
  match args with
  | a0 :: a1 :: a2 :: a3 :: a4 :: a5 :: _ =>
      Done (mkMatrix (number a0) (number a1) (number a2)
                     (number a3) (number a4) (number a5))
  | _ => Panic
  end.

(** ** Go library functions used by the extractor *)

(** The line feed, Go's ["\n"]. *)
Definition NL : string := String "010"%char "".
Definition SP : string := " ".

(** [int(b)] for a byte. *)
Definition byteInt (b : byte) : Z := Z.of_N (Byte.to_N b).

(** [float64(n)] for a length or a count. *)
Definition float64_of_len (n : nat) : float :=
  PrimFloat.of_uint63 (Uint63.of_Z (Z.of_nat n)).

(** [string(b)] for a single byte [b]: Go converts the integer to the UTF-8
    encoding of the code point with that number, so a byte of 0x80 or more
    becomes two bytes. *)
Definition string_of_rune (b : byte) : string :=
  let n := Byte.to_N b in
  if (n <? 128)%N then String (ascii_of_N n) ""
  else String (ascii_of_N (192 + n / 64)) (String (ascii_of_N (128 + n mod 64)) "").

(** [string(bs)] for a byte slice: the same bytes. *)
Definition string_of_bytes (bs : list byte) : string := string_of_list_byte bs.

(** [[]byte(s)]. *)
Definition bytes_of_string (s : string) : list byte := list_byte_of_string s.

Definition hexDigit (d : N) : ascii :=
  if (d <? 10)%N then ascii_of_N (48 + d) else ascii_of_N (55 + d).

Fixpoint hexUpper (fuel : nat) (n : N) (acc : string) : string :=
  match fuel with
  | O => acc
  | S fuel' =>
      let acc' := String (hexDigit (n mod 16)) acc in
      if (n / 16 =? 0)%N then acc' else hexUpper fuel' (n / 16) acc'
  end.

Fixpoint zeros (k : nat) : string :=
  match k with
  | O => ""
  | S k' => String "0" (zeros k')
  end.

(** [fmt.Sprintf("%04X", n)] for [n >= 0]: upper-case hexadecimal, padded
    with zeros on the left to at least four digits. *)
Definition Sprintf04X (n : Z) : string :=
  let digits := hexUpper (N.size_nat (Z.to_N n)) (Z.to_N n) "" in
  zeros (4 - String.length digits) ++ digits.

(** [strings.Count(s, " ")]. *)
Fixpoint Count_space (s : string) : nat :=
  match s with
  | EmptyString => 0
  | String c s' => (if Ascii.eqb c " " then 1 else 0) + Count_space s'
  end.

(** [strings.HasSuffix(s, suffix)]:
    [len(s) >= len(suffix) && s[len(s)-len(suffix):] == suffix]. *)
Definition HasSuffix (s suffix : string) : bool :=
  (String.length suffix <=? String.length s)%nat &&
  String.eqb (substring (String.length s - String.length suffix)
                        (String.length suffix) s) suffix.

(** ** handleText: the show-string routine *)

(** The type switch at the head of [handleText]. *)
Definition rawBytesOf (obj : Object) : option (list byte) :=
  match obj with
  | StringObject o => Some (bytes_of_string o)
  | HexStringObject o => Some o
  | _ => None
  end.

(** Step 2 of [handleText]: [spaceWidth] and [threshold]. *)
Definition spaceWidthOf (t : TextState) : float :=
  match ts_Font t with
  | Some f => (SpaceWidth f / 1000) * FontSize t * (Scale t / 100)
  | None => 0
  end.

Definition thresholdOf (t : TextState) : float :=
  let spaceWidth := spaceWidthOf t in
  if (0 <? spaceWidth)%float then spaceWidth * 0.5 else FontSize t * 0.2.

(** The separator that step 2 writes to the buffer before the text:
    a newline, a space, or nothing. *)
Definition separatorOf (e : Extractor) (x y : float) : string :=
  let t := textState e in
  if (FontSize t * 0.5 <? abs (y - lastY e))%float then
    if (0 <? String.length (buffer e))%nat then NL else ""
  else
    let gap := (x - lastX e)%float in
    if (thresholdOf t <? gap)%float then
      if (0 <? String.length (buffer e))%nat
         && negb (HasSuffix (buffer e) NL)
         && negb (HasSuffix (buffer e) SP)
      then SP else ""
    else "".

(** Step 3, the loop over [rawBytes] with index [i]; [decoded] is the
    accumulator of the source. *)
Fixpoint decodeLoop (m : gmap string string) (rawBytes : list byte)
    (decoded : string) {struct rawBytes} : string :=
  match rawBytes with
  | [] => decoded
  | b :: rest =>
      let oneByte :=
        match m !! Sprintf04X (byteInt b) with
        | Some val => decodeLoop m rest (decoded ++ val)
        | None => decodeLoop m rest (decoded ++ string_of_rune b)
        end in
      match rest with
      | b' :: rest' =>
          match m !! Sprintf04X (Z.lor (Z.shiftl (byteInt b) 8) (byteInt b')) with
          | Some val => decodeLoop m rest' (decoded ++ val)
          | None => oneByte
          end
      | [] => oneByte
      end
  end.

(** The map the decoding loop uses: present only when the font, its CMap
    pointer and a non-empty table are all there. *)
Definition activeCMap (t : TextState) : option (gmap string string) :=
  match ts_Font t with
  | Some f =>
      match font_CMap f with
      | Some c => if (0 <? size (Map c))%nat then Some (Map c) else None
      | None => None
      end
  | None => None
  end.

Definition decodeText (t : TextState) (rawBytes : list byte) : string :=
  match activeCMap t with
  | Some m => decodeLoop m rawBytes ""
  | None => string_of_bytes rawBytes
  end.

(** Step 4: the widths table used for the advance, when the font has one. *)
Definition activeWidths (t : TextState) : option Font :=
  match ts_Font t with
  | Some f => if (0 <? size (Widths f))%nat then Some f else None
  | None => None
  end.

Definition sumWidths (f : Font) (rawBytes : list byte) : float :=
  fold_left (fun totalWidth b =>
               let w := match Widths f !! byteInt b with
                        | Some val => val
                        | None => MissingW f
                        end in
               (totalWidth + w)%float)
            rawBytes 0%float.

Definition totalWidthOf (t : TextState) (rawBytes : list byte)
    (decoded : string) : float :=
  match activeWidths t with
  | Some f =>
      let totalWidth := sumWidths f rawBytes in
      let totalWidth := (totalWidth / 1000 * FontSize t)%float in
      let totalWidth :=
        (totalWidth + float64_of_len (length rawBytes) * CharSpacing t)%float in
      let spaceCount := Count_space decoded in
      let totalWidth :=
        (totalWidth + float64_of_len spaceCount * WordSpacing t)%float in
      (totalWidth * (Scale t / 100))%float
  | None =>
      (float64_of_len (String.length decoded) * FontSize t * 0.5
       * (Scale t / 100))%float
  end.

Definition handleText (e : Extractor) (obj : Object) : Extractor :=
  match rawBytesOf obj with
  | None => e
  | Some rawBytes =>
      let t := textState e in
      let fm := Mult (TM t) (CTM (gState e)) in
      let x := M4 fm in
      let y := M5 fm in
      let buffer1 := buffer e ++ separatorOf e x y in
      let decoded := decodeText t rawBytes in
      let buffer2 := buffer1 ++ decoded in
      let totalWidth := totalWidthOf t rawBytes decoded in
      let tm := TM t in
      let tm4 := (M4 tm + totalWidth * M0 tm)%float in
      let tm5 := (M5 tm + totalWidth * M1 tm)%float in
      let tm' := mkMatrix (M0 tm) (M1 tm) (M2 tm) (M3 tm) tm4 tm5 in
      set_textState (set_TM tm' t)
        (set_last (x + totalWidth)%float y (set_buffer buffer2 e))
  end.

(** ** processOp: the operator interpreter *)

(** The cases of the [switch op.Operator]; [OpOther] is the absent default. *)
Inductive Opcode : Type :=
  | Op_q | Op_Q | Op_cm | Op_BT | Op_Tc | Op_Tw | Op_Tz | Op_TL | Op_Tf
  | Op_Td | Op_TD | Op_Tm | Op_Tstar | Op_Tj | Op_TJ | Op_quote | Op_dquote
  | OpOther.

(** The double quote, the operator name of the last case. *)
Definition DQUOTE : string := String "034"%char "".

Definition opcodeOf (operator : string) : Opcode :=
  if String.eqb operator "q" then Op_q
  else if String.eqb operator "Q" then Op_Q
  else if String.eqb operator "cm" then Op_cm
  else if String.eqb operator "BT" then Op_BT
  else if String.eqb operator "Tc" then Op_Tc
  else if String.eqb operator "Tw" then Op_Tw
  else if String.eqb operator "Tz" then Op_Tz
  else if String.eqb operator "TL" then Op_TL
  else if String.eqb operator "Tf" then Op_Tf
  else if String.eqb operator "Td" then Op_Td
  else if String.eqb operator "TD" then Op_TD
  else if String.eqb operator "Tm" then Op_Tm
  else if String.eqb operator "T*" then Op_Tstar
  else if String.eqb operator "Tj" then Op_Tj
  else if String.eqb operator "TJ" then Op_TJ
  else if String.eqb operator "'" then Op_quote
  else if String.eqb operator DQUOTE then Op_dquote
  else OpOther.

(** [m.Mult(TLM)] stored into both text matrices: the tail shared by
    [Td], [TD] and [T*]. *)
Definition moveLine (tx ty : float) (t : TextState) : TextState :=
  let tlm := Mult (mkMatrix 1 0 0 1 tx ty) (TLM t) in
  set_TM tlm (set_TLM tlm t).

(** case "T*" (it reads no operand). *)
Definition opTstar (e : Extractor) : Extractor :=
  let t := textState e in
  set_textState (moveLine 0 (- Leading t)%float t) e.

(** case "Tj", on the operand slice it is given. *)
Definition opTj (e : Extractor) (operands : list Object) : Extractor :=
  match operands with
  | o0 :: _ => handleText e o0
  | [] => e
  end.

(** One element of a [TJ] array. *)
Definition opTJ_elem (e : Extractor) (obj : Object) : Extractor :=
  match obj with
  | NumberObject numObj =>
      let t := textState e in
      let shift := (- numObj / 1000 * FontSize t * (Scale t / 100))%float in
      let tm := TM t in
      let tm4 := (M4 tm + shift * M0 tm)%float in
      let tm5 := (M5 tm + shift * M1 tm)%float in
      set_textState
        (set_TM (mkMatrix (M0 tm) (M1 tm) (M2 tm) (M3 tm) tm4 tm5) t) e
  | _ => handleText e obj
  end.

(** [processOp].  The two recursive calls of the source, in the cases for
    the quote operators, carry the fixed operators [T*] and [Tj]; they are
    written here as the bodies of those cases, [opTstar] and [opTj]. *)
Definition processOp (e : Extractor) (op : Operation) : Exec Extractor :=
  let t := textState e in
  match opcodeOf (Operator op) with
  | Op_q => Done (set_gStack (gStack e ++ [gState e])%list e)
  | Op_Q =>
      match last (gStack e) with
      | Some g => Done (set_gStack (removelast (gStack e)) (set_gState g e))
      | None => Done e
      end
  | Op_cm =>
      if (length (Operands op) =? 6)%nat then
        match argsToMatrix (Operands op) with
        | Done m => Done (set_gState (mkGraphicsState (Mult m (CTM (gState e)))) e)
        | Panic => Panic
        end
      else Done e
  | Op_BT =>
      Done (set_textState (set_TLM IdentityMatrix (set_TM IdentityMatrix t)) e)
  | Op_Tc =>
      match Operands op with
      | o0 :: _ => Done (set_textState (set_CharSpacing (number o0) t) e)
      | [] => Panic
      end
  | Op_Tw =>
      match Operands op with
      | o0 :: _ => Done (set_textState (set_WordSpacing (number o0) t) e)
      | [] => Panic
      end
  | Op_Tz =>
      match Operands op with
      | o0 :: _ => Done (set_textState (set_Scale (number o0) t) e)
      | [] => Panic
      end
  | Op_TL =>
      match Operands op with
      | o0 :: _ => Done (set_textState (set_Leading (number o0) t) e)
      | [] => Panic
      end
  | Op_Tf =>
      match Operands op with
      | o0 :: rest =>
          let t1 :=
            match o0 with
            | NameObject name =>
                match fonts e !! name with
                | Some font => set_Font (Some font) t
                | None => t
                end
            | _ => t
            end in
          match rest with
          | o1 :: _ => Done (set_textState (set_FontSize (number o1) t1) e)
          | [] => Panic
          end
      | [] => Panic
      end
  | Op_Td =>
      match Operands op with
      | o0 :: o1 :: _ =>
          Done (set_textState (moveLine (number o0) (number o1) t) e)
      | _ => Panic
      end
  | Op_TD =>
      match Operands op with
      | o0 :: o1 :: _ =>
          let tx := number o0 in
          let ty := number o1 in
          Done (set_textState (moveLine tx ty (set_Leading (- ty)%float t)) e)
      | _ => Panic
      end
  | Op_Tm =>
      if (length (Operands op) =? 6)%nat then
        match argsToMatrix (Operands op) with
        | Done m => Done (set_textState (set_TLM m (set_TM m t)) e)
        | Panic => Panic
        end
      else Done e
  | Op_Tstar => Done (opTstar e)
  | Op_Tj => Done (opTj e (Operands op))
  | Op_TJ =>
      match Operands op with
      | ArrayObject arr :: _ => Done (fold_left opTJ_elem arr e)
      | _ :: _ => Done e
      | [] => Panic
      end
  | Op_quote => Done (opTj (opTstar e) (Operands op))
  | Op_dquote =>
      match Operands op with
      | o0 :: o1 :: rest =>
          let t1 := set_CharSpacing (number o1) (set_WordSpacing (number o0) t) in
          Done (opTj (opTstar (set_textState t1 e)) rest)
      | _ => Panic
      end
  | OpOther => Done e
  end.

(** The loop [for _, op := range ops { e.processOp(op) }]. *)
Fixpoint processOps (e : Extractor) (ops : list Operation) : Exec Extractor :=
  match ops with
  | [] => Done e
  | op :: rest =>
      match processOp e op with
      | Done e' => processOps e' rest
      | Panic => Panic
      end
  end.

(** ** The content-stream parser (pkg/pdf/content.go) *)

(** A Go call with an [error] in its signature: it returns a value, returns
    an error, or does not return because of a panic. *)
Inductive Result (A : Type) : Type :=
  | Ok (a : A)
  | Err
  | Panicked.
Arguments Ok {A} a.
Arguments Err {A}.
Arguments Panicked {A}.

(** Modelled from the spec: the lexer's byte classes [isWhitespace] and
    [isDelimiter], whose file is not among the sources.  Whitespace is NUL,
    TAB, LF, FF, CR and SPACE; a delimiter is one of [()<>[]{}/%]. *)
Definition isWhitespace (b : byte) : bool :=
  match b with
  | x00 | x09 | x0a | x0c | x0d | x20 => true
  | _ => false
  end%byte.

Definition isDelimiter (b : byte) : bool :=
  match b with
  | "(" | ")" | "<" | ">" | "[" | "]" | "{" | "}" | "/" | "%" => true
  | _ => false
  end%byte.

(** Step 2 of [skipInlineImage]: after [ID], one end-of-line sequence is
    consumed; a byte that is neither CR nor LF is put back.  The reader is
    the list of bytes not yet read; [None] is the error of [ReadByte]. *)
Definition consumeEOL (input : list byte) : option (list byte) :=
  match input with
  | [] => None
  | b :: rest =>
      if Byte.eqb b x0d then
        match rest with
        | next :: rest' => if Byte.eqb next x0a then Some rest' else Some rest
        | [] => Some rest
        end
      else if negb (Byte.eqb b x0a) then Some input
      else Some rest
  end.

(** Step 3 of [skipInlineImage]: the scan for the marker.  [Some rest] is
    [return nil] with [rest] left unread; [None] is the error of [ReadByte]
    at the end of the data. *)
Fixpoint scanEI (input : list byte) : option (list byte) :=
  match input with
  | [] => None
  | b :: rest =>
      if Byte.eqb b "E" then
        match rest with
        | next :: rest' =>
            if Byte.eqb next "I" then
              match rest' with
              | [] => Some rest'
              | after :: _ =>
                  if isWhitespace after || isDelimiter after then Some rest'
                  else scanEI rest'
              end
            else scanEI rest
        | [] => scanEI rest
        end
      else scanEI rest
  end.

Record ContentStreamParser : Type := mkParser {
  lexer : list byte;                (* the bytes the lexer has not read *)
  operands : list Object;
  eof : bool
}.

Section Parser.
(** The lexer is not among the sources; its two entry points are
    parameters.  [ReadObject] returns the object and the unread rest. *)
Variable skipWhitespace : list byte -> list byte.
Variable ReadObject : list byte -> Result (Object * list byte).

(** Step 1 of [skipInlineImage]: the loop that reads key/value pairs up
    to the keyword [ID].  The loop is unbounded in the source; [fuel]
    bounds its iterations and [None] says the bound was reached. *)
Fixpoint readImageDict (fuel : nat) (imageDict : gmap string Object)
    (input : list byte) : option (Result (gmap string Object * list byte)) :=
  match fuel with
  | O => None
  | S fuel' =>
      match ReadObject (skipWhitespace input) with
      | Ok (obj, input1) =>
          let readPair (key : string) :=
            match ReadObject (skipWhitespace input1) with
            | Ok (val, input2) =>
                readImageDict fuel' (<[key := val]> imageDict) input2
            | Err => Some Err
            | Panicked => Some Panicked
            end in
          match obj with
          | KeywordObject kw =>
              if String.eqb kw "ID" then Some (Ok (imageDict, input1))
              else Some Err
          | NameObject key => readPair key
          | _ => Some Err
          end
      | Err => Some Err
      | Panicked => Some Panicked
      end
  end.

(** Steps 2 and 3 together, on the bytes that follow [ID]. *)
Definition skipImageData (input : list byte) : option (list byte) :=
  match consumeEOL input with
  | Some input' => scanEI input'
  | None => None
  end.

(** [skipInlineImage]: [Ok] carries the parser as the call leaves it,
    [Err] is any error returned, the [io.EOF] of [ReadByte] when the data
    runs out included; [inlineImageFailure] below tells the two apart. *)
Definition skipInlineImage (fuel : nat) (p : ContentStreamParser)
    : option (Result ContentStreamParser) :=
  match readImageDict fuel ∅ (lexer p) with
  | Some (Ok (imageDict, input1)) =>
      match skipImageData input1 with
      | Some rest =>
          Some (Ok (mkParser rest [DictionaryObject imageDict] (eof p)))
      | None => Some Err
      end
  | Some Err => Some Err
  | Some Panicked => Some Panicked
  | None => None
  end.

(** What [Next] hands back, with the parser as the call leaves it:
    [(op, nil)]; [(nil, io.EOF)], the error made by [Next] itself or by
    [ReadByte]; or [(nil, err)] for an error that [ReadObject] returned
    (wrapped by [fmt.Errorf] from the main loop, unchanged from the
    dictionary loop; the errors of the lexer are not told apart) or that
    the dictionary loop made. *)
Inductive NextResult : Type :=
  | NextOp (op : Operation) (p : ContentStreamParser)
  | NextEOF (p : ContentStreamParser)
  | NextErr
  | NextPanicked.

(** The error of [skipInlineImage] as [Next] passes it on, unwrapped.  When
    the dictionary was read and the data ran out, at the line end or in the
    scan, the error is the [io.EOF] of [ReadByte]: the caller sees
    [(nil, io.EOF)] although [p.eof] was not set, all the input is read, and
    [p.operands] already holds the image dictionary.  Otherwise it is the
    error of the lexer or of the dictionary loop. *)
Definition inlineImageFailure (fuel : nat) (p : ContentStreamParser)
    : NextResult :=
  match readImageDict fuel ∅ (lexer p) with
  | Some (Ok (imageDict, _)) =>
      NextEOF (mkParser [] [DictionaryObject imageDict] (eof p))
  | _ => NextErr
  end.

(** [Next]; [None] says the loop did not finish within [fuel]. *)
Fixpoint Next (fuel : nat) (p : ContentStreamParser) : option NextResult :=
  if eof p then Some (NextEOF p)
  else
    match fuel with
    | O => None
    | S fuel' =>
        match skipWhitespace (lexer p) with
        | [] => Some (NextEOF (mkParser [] (operands p) true))
        | input =>
            match ReadObject input with
            | Ok (KeywordObject kw, input1) =>
                let p1 := mkParser input1 (operands p) (eof p) in
                if String.eqb kw "BI" then
                  match skipInlineImage fuel' p1 with
                  | Some (Ok p2) =>
                      Some (NextOp (mkOperation "INLINE_IMAGE" (operands p2))
                                   (mkParser (lexer p2) [] (eof p2)))
                  | Some Err => Some (inlineImageFailure fuel' p1)
                  | Some Panicked => Some NextPanicked
                  | None => None
                  end
                else
                  Some (NextOp (mkOperation kw (operands p))
                               (mkParser input1 [] (eof p)))
            | Ok (obj, input1) =>
                Next fuel' (mkParser input1 (operands p ++ [obj])%list (eof p))
            | Err => Some NextErr
            | Panicked => Some NextPanicked
            end
        end
    end.
End Parser.

(** ** NewExtractor and ExtractText *)

(** A stream value, [StreamObject] of the source as a struct. *)
Record Stream : Type := mkStream {
  stream_Dictionary : gmap string Object;
  stream_Data : list byte
}.

(** The type assertion [x.(StreamObject)] on an interface value. *)
Definition asStream (x : option Object) : option Stream :=
  match x with
  | Some (StreamObject d data) => Some (mkStream d data)
  | _ => None
  end.

Section Extraction.
(** The reader's [Resolve] (an interface value in, an interface value
    out; [None] is nil), the content-stream parser's [Parse] over a
    stream's data, and [loadFont] are parameters: the reader, the lexer
    under the parser and the CMap parser under [loadFont] are not among
    the sources. *)
Variable Resolve : option Object -> option Object.
Variable Parse : list byte -> Result (list Operation).
Variable loadFont : gmap string Object -> Font.

(** The loop [for name, ref := range fonts] of [NewExtractor]; the type
    assertion on the resolved font object has no [ok] and panics on
    anything but a dictionary. *)
Fixpoint loadFontEntries (entries : list (string * Object))
    (table : gmap string Font) : Exec (gmap string Font) :=
  match entries with
  | [] => Done table
  | (name, ref) :: rest =>
      match Resolve (Some ref) with
      | Some (DictionaryObject fontObj) =>
          loadFontEntries rest (<[name := loadFont fontObj]> table)
      | _ => Panic
      end
  end.

Definition NewExtractor (page : gmap string Object) : Exec Extractor :=
  let start (table : gmap string Font) :=
    mkExtractor page (mkGraphicsState IdentityMatrix) [] NewTextState
                table 0 0 "" in
  match Resolve (page !! "/Resources") with
  | Some (DictionaryObject res) =>
      match Resolve (res !! "/Font") with
      | Some (DictionaryObject fonts) =>
          match loadFontEntries (map_to_list fonts) ∅ with
          | Done table => Done (start table)
          | Panic => Panic
          end
      | _ => Done (start ∅)
      end
  | _ => Done (start ∅)
  end.

(** The first half of [ExtractText]: the slice [streams]. *)
Definition collectStreams (contents : option Object) : list Stream :=
  match contents with
  | Some (ArrayObject arr) =>
      fold_left (fun streams ref =>
                   match asStream (Resolve (Some ref)) with
                   | Some s => (streams ++ [s])%list
                   | None => streams
                   end) arr []
  | _ =>
      match asStream contents with
      | Some s => [s]
      | None => []
      end
  end.

(** The second half: parse each stream and feed its operations to
    [processOp]; the text is read off the buffer at the end. *)
Fixpoint runStreams (e : Extractor) (streams : list Stream) : Result string :=
  match streams with
  | [] => Ok (buffer e)
  | stream :: rest =>
      match Parse (stream_Data stream) with
      | Ok ops =>
          match processOps e ops with
          | Done e' => runStreams e' rest
          | Panic => Panicked
          end
      | Err => Err
      | Panicked => Panicked
      end
  end.

Definition ExtractText (e : Extractor) : Result string :=
  let contents := Resolve (page e !! "/Contents") in
  runStreams e (collectStreams contents).
End Extraction.

(** ** The loader (pkg/loader, pkg/model) *)

Record Metadata : Type := mkMetadata {
  Title : string;
  Author : string;
  Creator : string;
  Producer : string;
  Encrypted : bool
}.

Record Page : Type := mkPage {
  PageNumber : Z;
  Content : string;
  CharCount : Z;
  Width : float;
  Height : float
}.

Record Document : Type := mkDocument {
  doc_Metadata : Metadata;
  Pages : list Page
}.

(** The reader as the loader sees it; its implementation is not among the
    sources. *)
Record Reader : Type := mkReader {
  NumPages : Z;
  GetInfo : Result (option (gmap string Object));
  GetPage : Z -> Result (gmap string Object);
  reader_Resolve : option Object -> option Object
}.

(** [info[key].(pdf.StringObject)], the empty string when the assertion
    fails. *)
Definition infoString (info : gmap string Object) (key : string) : string :=
  match info !! key with
  | Some (StringObject s) => s
  | _ => ""
  end.

(** Step 3 of [LoadPDF], on what [GetInfo] returned: the four strings are
    read only if [err == nil && info != nil]. *)
Definition extractMetadata (got : Result (option (gmap string Object)))
    : Metadata :=
  match got with
  | Ok (Some info) =>
      mkMetadata (infoString info "/Title") (infoString info "/Author")
                 (infoString info "/Creator") (infoString info "/Producer")
                 false
  | _ => mkMetadata "" "" "" "" false
  end.

(** Width and height from [/MediaBox]: entries 2 and 3 of a four-element
    array, each 0 unless it is a number. *)
Definition mediaBoxSize (pdfPage : gmap string Object) : float * float :=
  match pdfPage !! "/MediaBox" with
  | Some (ArrayObject [_; _; w; h]) =>
      (match w with NumberObject v => v | _ => 0%float end,
       match h with NumberObject v => v | _ => 0%float end)
  | _ => (0%float, 0%float)
  end.

Section Loader.
Variable Parse : list byte -> Result (list Operation).
Variable loadFont : gmap string Object -> Font.

(** The body of the page loop for index [i]: [Ok] is the appended page
    record, [Err] is a [continue] after one of the three error checks. *)
Definition loadPage (r : Reader) (i : Z) : Result Page :=
  match GetPage r i with
  | Ok pdfPage =>
      match NewExtractor (reader_Resolve r) loadFont pdfPage with
      | Done extractor =>
          match ExtractText (reader_Resolve r) Parse extractor with
          | Ok text =>
              let '(width, height) := mediaBoxSize pdfPage in
              Ok (mkPage (i + 1) text (Z.of_nat (String.length text))
                         width height)
          | Err => Err
          | Panicked => Panicked
          end
      | Panic => Panicked
      end
  | Err => Err
  | Panicked => Panicked
  end.

(** The loop [for i := 0; i < numPages; i++] over the indices still to
    visit, [pages] being [doc.Pages] so far. *)
Fixpoint pageLoop (r : Reader) (indices : list Z) (pages : list Page)
    : Result (list Page) :=
  match indices with
  | [] => Ok pages
  | i :: rest =>
      match loadPage r i with
      | Ok pg => pageLoop r rest (pages ++ [pg])%list
      | Err => pageLoop r rest pages
      | Panicked => Panicked
      end
  end.

(** [LoadPDF] from the point where the reader exists (steps 3 and 4).
    [make([]model.Page, 0, n)] panics for a negative capacity [n]. *)
Definition loadDocument (r : Reader) : Result Document :=
  match GetInfo r with
  | Panicked => Panicked
  | got =>
      let meta := extractMetadata got in
      if (NumPages r <? 0)%Z then Panicked
      else
        match pageLoop r (seqZ 0 (NumPages r)) [] with
        | Ok pages => Ok (mkDocument meta pages)
        | Err => Err
        | Panicked => Panicked
        end
  end.

(** [LoadPDF]: [opened] is the outcome of [os.Open] followed by
    [pdf.NewReader]; either error is returned as it is. *)
Definition LoadPDF (opened : Result Reader) : Result Document :=
  match opened with
  | Ok r => loadDocument r
  | Err => Err
  | Panicked => Panicked
  end.
End Loader.

(** ** Quantities the properties speak of *)

(** The keys the decoding loop looks up when it advances one byte at a
    time: at each index the two-byte key made with the next byte, when
    there is one, and then the one-byte key. *)
Fixpoint loopKeys (rawBytes : list byte) : list string :=
  match rawBytes with
  | [] => []
  | b :: rest =>
      match rest with
      | b' :: _ =>
          [Sprintf04X (Z.lor (Z.shiftl (byteInt b) 8) (byteInt b'))]
      | [] => []
      end ++ Sprintf04X (byteInt b) :: loopKeys rest
  end.

(** The width the advance charges for one byte: the table entry of its
    code, the missing-width default when there is none. *)
Definition widthOrMissing (f : Font) (b : byte) : float :=
  default (MissingW f) (Widths f !! byteInt b).

(** The space width in user space, for a font [f]. *)
Definition spaceWidthUser (f : Font) (t : TextState) : float :=
  (SpaceWidth f / 1000 * FontSize t * (Scale t / 100))%float.

(** The page record the loop appends for index [i], if it appends one. *)
Definition emittedPage (Parse : list byte -> Result (list Operation))
    (loadFont : gmap string Object -> Font) (r : Reader) (i : Z)
    : option Page :=
  match loadPage Parse loadFont r i with
  | Ok pg => Some pg
  | _ => None
  end.

(** ** Predicates on inline-image data *)

(** What may follow the marker: nothing, white space or a delimiter. *)
Definition markerEnds (rest : list byte) : bool :=
  match rest with
  | [] => true
  | after :: _ => isWhitespace after || isDelimiter after
  end.

(** [EI] stands at offset [length pre] of [input] and is followed by the
    end of the data, white space or a delimiter. *)
Definition markerAt (pre rest input : list byte) : Prop :=
  input = (pre ++ "E"%byte :: "I"%byte :: rest)%list /\ markerEnds rest = true.

(** No such marker stands at an offset below [length pre]. *)
Definition noMarkerBefore (pre input : list byte) : Prop :=
  forall pre1 rest1,
    input = (pre1 ++ "E"%byte :: "I"%byte :: rest1)%list ->
    (length pre1 < length pre)%nat ->
    markerEnds rest1 = false.

(** ** Predicates on operation sequences *)

(** The nesting of [q]/[Q] in a sequence, read at depth [depth]: every [Q]
    closes a [q] opened earlier in the sequence, and none is left open. *)
Fixpoint balancedFrom (depth : nat) (ops : list Operation) : bool :=
  match ops with
  | [] => (depth =? 0)%nat
  | op :: rest =>
      match opcodeOf (Operator op) with
      | Op_q => balancedFrom (S depth) rest
      | Op_Q =>
          match depth with
          | O => false
          | S depth' => balancedFrom depth' rest
          end
      | _ => balancedFrom depth rest
      end
  end.

Definition qQ_balanced (ops : list Operation) : bool := balancedFrom 0 ops.

(** The same nesting, with every [cm] inside at least one open [q]. *)
Fixpoint enclosedFrom (depth : nat) (ops : list Operation) : bool :=
  match ops with
  | [] => (depth =? 0)%nat
  | op :: rest =>
      match opcodeOf (Operator op) with
      | Op_q => enclosedFrom (S depth) rest
      | Op_Q =>
          match depth with
          | O => false
          | S depth' => enclosedFrom depth' rest
          end
      | Op_cm => (0 <? depth)%nat && enclosedFrom depth rest
      | _ => enclosedFrom depth rest
      end
  end.

Definition cm_enclosed (ops : list Operation) : bool := enclosedFrom 0 ops.

(** The operand counts with which [processOp] indexes inside the slice. *)
Definition operandsOk (op : Operation) : bool :=
  match opcodeOf (Operator op) with
  | Op_Tc | Op_Tw | Op_Tz | Op_TL | Op_TJ => (1 <=? length (Operands op))%nat
  | Op_Tf | Op_Td | Op_TD | Op_dquote => (2 <=? length (Operands op))%nat
  | _ => true
  end.

(** Two extractor states with the same CTM and graphics stack. *)
Definition graphics_eq (e' e : Extractor) : Prop :=
  gState e' = gState e /\ gStack e' = gStack e.

(** ** Sample inputs *)

Definition num (v : float) : Object := NumberObject v.

Definition emptyExtractor : Extractor :=
  mkExtractor ∅ (mkGraphicsState IdentityMatrix) [] NewTextState ∅ 0 0 "".

(** A simple font: width 500 at the codes of [A] and [B] and no other
    entry in the table, space width 250, empty ToUnicode map. *)
Definition sampleFont : Font :=
  mkFont "Helvetica" (Some (mkCMap ∅))
         (<[65%Z := 500%float]> (<[66%Z := 500%float]> ∅)) 0 250 false.

(** A font whose ToUnicode map sends code 0041 to [B]. *)
Definition sampleCMapFont : Font :=
  mkFont "Mapped" (Some (mkCMap (<["0041" := "B"]> ∅))) ∅ 0 250 true.

(** A font whose ToUnicode map has the one entry FFFF. *)
Definition unmatchedCMapFont : Font :=
  mkFont "Unmatched" (Some (mkCMap (<["FFFF" := "z"]> ∅))) ∅ 0 250 true.

Definition op_cm_scale2 : Operation :=
  mkOperation "cm" [num 2; num 0; num 0; num 2; num 0; num 0].

(** The nested brackets [q 2 0 0 2 0 0 cm q 0.5 0 0 0.5 0 0 cm Q Q]. *)
Definition sampleBracket : list Operation :=
  [ mkOperation "q" []; op_cm_scale2; mkOperation "q" [];
    mkOperation "cm" [num 0.5; num 0; num 0; num 0.5; num 0; num 0];
    mkOperation "Q" []; mkOperation "Q" [] ].

(** A page in mid-line: [sampleFont] at 12 points, the text matrix at
    (100, 700), [Hello] already written and ending at x = 70. *)
Definition sampleExtractor : Extractor :=
  mkExtractor ∅ (mkGraphicsState IdentityMatrix) []
    (mkTextState (Some sampleFont) 12 0 0 100 0 0
                 (mkMatrix 1 0 0 1 100 700) (mkMatrix 1 0 0 1 100 700))
    (<["/F1" := sampleFont]> ∅) 70 700 "Hello".

(** The same font under a horizontal scale of -100 ([-100 Tz]): the text
    matrix at (1, 0), [A] already written and ending at x = 0. *)
Definition negScaleExtractor : Extractor :=
  mkExtractor ∅ (mkGraphicsState IdentityMatrix) []
    (mkTextState (Some sampleFont) 12 0 0 (-100) 0 0
                 (mkMatrix 1 0 0 1 1 0) (mkMatrix 1 0 0 1 1 0))
    (<["/F1" := sampleFont]> ∅) 0 0 "A".

(** Stand-ins for the absent collaborators in the examples: a reader
    without indirect objects, a parser that fails on empty data and reads
    any other data as the string operand of one [Tj], and a font loader
    that returns [sampleFont]. *)
Definition sampleResolve (x : option Object) : option Object := x.

Definition sampleParse (data : list byte) : Result (list Operation) :=
  match data with
  | [] => Err
  | _ => Ok [mkOperation "Tj" [StringObject (string_of_bytes data)]]
  end.

Definition sampleLoadFont (_ : gmap string Object) : Font := sampleFont.

Definition pageWith (contents : Object) : gmap string Object :=
  <["/Contents" := contents]> ∅.

(** A /Contents array of two streams with a number between them. *)
Definition sampleContents : Object :=
  ArrayObject [StreamObject ∅ (bytes_of_string "Hi"); num 1;
               StreamObject ∅ (bytes_of_string "Yo")].

(** Three pages: the first and the third show [Hi], the second cannot be
    retrieved. *)
Definition sampleReader : Reader :=
  mkReader 3 (Ok None)
    (fun i => if (i =? 1)%Z then Err
              else Ok (pageWith (StreamObject ∅ (bytes_of_string "Hi"))))
    sampleResolve.

(** A page that shows [Hi] and whose only font entry is [null], and a
    reader of two pages: that one, then a page that shows [Hi] and names
    no font. *)
Definition badFontPage : gmap string Object :=
  <["/Resources" :=
      DictionaryObject
        (<["/Font" := DictionaryObject (<["/F1" := NullObject]> ∅)]> ∅)]>
    (pageWith (StreamObject ∅ (bytes_of_string "Hi"))).

Definition badFontReader : Reader :=
  mkReader 2 (Ok None)
    (fun i => if (i =? 0)%Z then Ok badFontPage
              else Ok (pageWith (StreamObject ∅ (bytes_of_string "Hi"))))
    sampleResolve.

(** A parser stand-in whose every stream is the single operator [Tc] with
    no operand before it. *)
Definition bareTcParse (_ : list byte) : Result (list Operation) :=
  Ok [mkOperation "Tc" []].

(** ** loadFont *)

(** [int(x)] for a [float64]: the fraction is discarded.  For a value no
    [int] holds (too large, infinite, not a number) Go leaves the result to
    the implementation; amd64 gives the least [int], as here. *)
Definition int_of_float64 (x : float) : Z :=
  let minInt := (- 2 ^ 63)%Z in
  match Prim2SF x with
  | S754_zero _ => 0%Z
  | S754_finite s m e =>
      let magnitude :=
        if (0 <=? e)%Z then (Z.pos m * 2 ^ e)%Z else (Z.pos m / 2 ^ (- e))%Z in
      let v := if s then (- magnitude)%Z else magnitude in
      if ((minInt <=? v) && (v <? 2 ^ 63))%Z then v else minInt
  | _ => minInt
  end.

(** Addition on [int] wraps around at 64 bits. *)
Definition wrapInt (z : Z) : Z := ((z + 2 ^ 63) mod 2 ^ 64 - 2 ^ 63)%Z.

(** The loop [for i, wObj := range widths] of [loadFont]: an element that
    is a number is stored at code [first+i]; any other element, an indirect
    reference included, is passed over. *)
Fixpoint loadWidths (first i : Z) (widths : list Object)
    (table : gmap Z float) : gmap Z float :=
  match widths with
  | [] => table
  | wObj :: rest =>
      loadWidths first (i + 1) rest
        match wObj with
        | NumberObject w => <[wrapInt (first + i) := w]> table
        | _ => table
        end
  end.

Section FontLoader.
(** [Resolve] belongs to the reader; [ParseCMap] and [NewCMap] belong to
    the CMap parser.  Neither file is among the sources.  [ParseCMap]
    returns [None] for its error. *)
Variable Resolve : option Object -> option Object.
Variable ParseCMap : list byte -> option CMap.
Variable NewCMap : CMap.

Definition loadFont (obj : gmap string Object) : Font :=
  let baseFont :=
    match Resolve (obj !! "/BaseFont") with
    | Some (NameObject bf) => bf
    | _ => ""
    end in
  let '(widths, isCID) :=
    match Resolve (obj !! "/FirstChar") with
    | Some (NumberObject firstObj) =>
        let first := int_of_float64 firstObj in
        (match Resolve (obj !! "/Widths") with
         | Some (ArrayObject widths) => loadWidths first 0 widths ∅
         | _ => ∅
         end, false)
    | _ => (∅, true)
    end in
  let spaceWidth :=
    match widths !! 32%Z with
    | Some w => w
    | None => 250%float
    end in
  let cmap :=
    match Resolve (obj !! "/ToUnicode") with
    | Some (StreamObject _ data) => ParseCMap data
    | _ => Some NewCMap
    end in
  mkFont baseFont cmap widths 0 spaceWidth isCID.
End FontLoader.

(** ** Parse: the batch parser (the earlier content.go) *)

Section BatchParser.
Variable skipWhitespace : list byte -> list byte.
Variable ReadObject : list byte -> Result (Object * list byte).

(** The loop of [Parse]; [operations] and [operands] are its two slices.
    The loop is unbounded in the source; [fuel] bounds its iterations and
    [None] says the bound was reached. *)
Fixpoint parseLoop (fuel : nat) (input : list byte)
    (operations : list Operation) (operands : list Object)
    : option (Result (list Operation)) :=
  match fuel with
  | O => None
  | S fuel' =>
      match skipWhitespace input with
      | [] => Some (Ok operations)
      | input' =>
          match ReadObject input' with
          | Ok (KeywordObject kw, rest) =>
              parseLoop fuel' rest
                (operations ++ [mkOperation kw operands])%list []
          | Ok (obj, rest) =>
              parseLoop fuel' rest operations (operands ++ [obj])%list
          | Err => Some Err
          | Panicked => Some Panicked
          end
      end
  end.

Definition Parse (fuel : nat) (data : list byte)
    : option (Result (list Operation)) :=
  parseLoop fuel data [] [].

(** A run of the lexer described by its tokens: from [input] it yields the
    objects [tokens], one after the skipped white space each, and leaves
    [final] unread. *)
Inductive lexes : list byte -> list Object -> list byte -> Prop :=
  | lexes_done input : lexes input [] input
  | lexes_token input b input' obj rest tokens final :
      skipWhitespace input = b :: input' ->
      ReadObject (b :: input') = Ok (obj, rest) ->
      lexes rest tokens final ->
      lexes input (obj :: tokens) final.
End BatchParser.

(** ** Quantities the further properties speak of *)

(** The operations a token sequence stands for: each keyword closes an
    operation with the objects read since the keyword before it. *)
Fixpoint groupOps (tokens : list Object) (operands : list Object)
    : list Operation :=
  match tokens with
  | [] => []
  | KeywordObject kw :: rest => mkOperation kw operands :: groupOps rest []
  | obj :: rest => groupOps rest (operands ++ [obj])%list
  end.

Definition isKeyword (obj : Object) : bool :=
  match obj with
  | KeywordObject _ => true
  | _ => false
  end.

(** An operation written back as tokens: its operands, then its keyword. *)
Definition opTokens (op : Operation) : list Object :=
  (Operands op ++ [KeywordObject (Operator op)])%list.

(** The tokens of the entries of an inline-image dictionary. *)
Definition pairTokens (pairs : list (string * Object)) : list Object :=
  flat_map (fun kv => [NameObject kv.1; kv.2]) pairs.

(** The type assertion [x.(DictionaryObject)] on an interface value. *)
Definition asDictionary (x : option Object) : option (gmap string Object) :=
  match x with
  | Some (DictionaryObject d) => Some d
  | _ => None
  end.

(** The operator names [processOp] has a case for. *)
Definition knownOperators : list string :=
  ["q"; "Q"; "cm"; "BT"; "Tc"; "Tw"; "Tz"; "TL"; "Tf"; "Td"; "TD"; "Tm";
   "T*"; "Tj"; "TJ"; "'"; DQUOTE].

(** The operators that show text. *)
Definition showOperators : list string := ["Tj"; "TJ"; "'"; DQUOTE].

(** The buffer of [e'] is the buffer of [e] with text added at its end, and
    the page and the font table are those of [e]. *)
Definition extends (e' e : Extractor) : Prop :=
  page e' = page e /\ fonts e' = fonts e
  /\ exists added, buffer e' = buffer e ++ added.

(** A byte is an end-of-line byte. *)
Definition isEOL (b : byte) : bool := Byte.eqb b x0d || Byte.eqb b x0a.

(** ** Further sample inputs *)

(** A lexer stand-in for the examples: white space is the space, an object
    is one byte, a letter being a keyword and anything else a name. *)
Fixpoint sampleSkipWhitespace (input : list byte) : list byte :=
  match input with
  | b :: rest => if Byte.eqb b " " then sampleSkipWhitespace rest else input
  | [] => []
  end.

Definition sampleReadObject (input : list byte) : Result (Object * list byte) :=
  match input with
  | [] => Err
  | b :: rest =>
      let n := Byte.to_N b in
      if ((65 <=? n) && (n <=? 122))%N
      then Ok (KeywordObject (string_of_bytes [b]), rest)
      else Ok (NameObject (string_of_bytes [b]), rest)
  end.

(** The same lexer, reading the two bytes [ID] as one keyword. *)
Definition sampleReadObjectID (input : list byte)
    : Result (Object * list byte) :=
  match input with
  | "I"%byte :: "D"%byte :: rest => Ok (KeywordObject "ID", rest)
  | _ => sampleReadObject input
  end.

(** The same lexer, reading [BI] and [ID] each as one keyword. *)
Definition sampleReadObjectBI (input : list byte)
    : Result (Object * list byte) :=
  match input with
  | "B"%byte :: "I"%byte :: rest => Ok (KeywordObject "BI", rest)
  | _ => sampleReadObjectID input
  end.

(** A parser at an inline image whose data ends before any marker, with
    one operand already in its buffer. *)
Definition cutShortImage : ContentStreamParser :=
  mkParser (bytes_of_string ("BI ID" ++ NL ++ "xxxx")) [num 7] false.

(** A font dictionary with codes 32 and 33, and a page that names it. *)
Definition sampleFontDict : gmap string Object :=
  <["/BaseFont" := NameObject "/Times"]>
    (<["/FirstChar" := num 32]>
       (<["/Widths" := ArrayObject [num 278; NullObject; num 500]]> ∅)).

Definition samplePage : gmap string Object :=
  <["/Resources" :=
      DictionaryObject
        (<["/Font" :=
             DictionaryObject (<["/F1" := DictionaryObject sampleFontDict]> ∅)]>
           ∅)]> ∅.

Definition sampleParseCMap (data : list byte) : option CMap :=
  match data with
  | [] => None
  | _ => Some (mkCMap (<["0041" := "B"]> ∅))
  end.

(** * Properties *)

(** ** The graphics state under the text operators *)

Lemma graphics_eq_refl e : graphics_eq e e.
Proof. split; reflexivity. Qed.

Lemma graphics_eq_trans e1 e2 e3 :
  graphics_eq e1 e2 -> graphics_eq e2 e3 -> graphics_eq e1 e3.
Proof. intros [H1 H2] [H3 H4]. split; congruence. Qed.

Lemma set_textState_graphics t e : graphics_eq (set_textState t e) e.
Proof. split; reflexivity. Qed.

Lemma handleText_graphics e obj : graphics_eq (handleText e obj) e.
Proof.
  unfold handleText. destruct (rawBytesOf obj); split; reflexivity.
Qed.

Lemma opTstar_graphics e : graphics_eq (opTstar e) e.
Proof. apply set_textState_graphics. Qed.

Lemma opTj_graphics e operands : graphics_eq (opTj e operands) e.
Proof.
  destruct operands as [|o0 rest]; simpl.
  - apply graphics_eq_refl.
  - apply handleText_graphics.
Qed.

Lemma opTJ_elem_graphics e obj : graphics_eq (opTJ_elem e obj) e.
Proof.
  destruct obj; simpl; try apply handleText_graphics.
  apply set_textState_graphics.
Qed.

Lemma opTJ_fold_graphics arr : forall e, graphics_eq (fold_left opTJ_elem arr e) e.
Proof.
  induction arr as [|obj arr IH]; intros e; simpl.
  - apply graphics_eq_refl.
  - eapply graphics_eq_trans; [apply IH | apply opTJ_elem_graphics].
Qed.

Create HintDb graphics.
#[local] Hint Resolve graphics_eq_refl set_textState_graphics handleText_graphics
  opTstar_graphics opTj_graphics opTJ_fold_graphics : graphics.

(** Every operator other than [q], [Q] and [cm] leaves the CTM and the
    graphics stack as they are. *)
Lemma processOp_graphics_frame e op e' :
  processOp e op = Done e' ->
  opcodeOf (Operator op) <> Op_q ->
  opcodeOf (Operator op) <> Op_Q ->
  opcodeOf (Operator op) <> Op_cm ->
  graphics_eq e' e.
Proof.
  unfold processOp. intros Hrun Hq HQ Hcm.
  destruct (opcodeOf (Operator op)); try congruence;
    repeat match type of Hrun with
           | context [match ?x with _ => _ end] => destruct x
           end;
    try discriminate; inversion Hrun; subst; clear Hrun;
    eauto with graphics.
  - eapply graphics_eq_trans; [apply opTj_graphics | apply opTstar_graphics].
  - eapply graphics_eq_trans; [apply opTj_graphics |].
    eapply graphics_eq_trans; [apply opTstar_graphics |].
    apply set_textState_graphics.
Qed.

(** ** The bracket law of [q] and [Q] *)

Lemma hd_snoc {A} (d x : A) (l : list A) : hd d (l ++ [x])%list = hd x l.
Proof. destruct l; reflexivity. Qed.

Lemma hd_nonempty {A} (d d' : A) (l : list A) :
  (0 < length l)%nat -> hd d l = hd d' l.
Proof. destruct l; simpl; [lia | reflexivity]. Qed.

(** With [frames] the states pushed since the start of a sequence, a
    sequence that closes them all ends in the oldest of them (or in the
    current state when there is none) and leaves the stack below them. *)
Lemma bracket_general ops : forall frames base e e',
  enclosedFrom (length frames) ops = true ->
  gStack e = (base ++ frames)%list ->
  processOps e ops = Done e' ->
  gState e' = hd (gState e) frames /\ gStack e' = base.
Proof.
  induction ops as [|op ops IH]; intros frames base e e' Hencl Hstack Hrun.
  - simpl in *. apply Nat.eqb_eq in Hencl.
    destruct frames; [|discriminate].
    inversion Hrun; subst. rewrite app_nil_r in Hstack. auto.
  - simpl in Hencl, Hrun.
    destruct (processOp e op) as [e1|] eqn:Hstep; [|discriminate].
    destruct (opcodeOf (Operator op)) eqn:Hop;
      try (assert (Hfr : graphics_eq e1 e)
             by (apply (processOp_graphics_frame e op); congruence);
           destruct Hfr as [Hg Hs];
           destruct (IH frames base e1 e' Hencl ltac:(congruence) Hrun)
             as [H1 H2];
           split; congruence).
    + (* q *)
      unfold processOp in Hstep. rewrite Hop in Hstep.
      inversion Hstep; subst; clear Hstep.
      destruct (IH (frames ++ [gState e])%list base
                  (set_gStack (gStack e ++ [gState e])%list e) e')
        as [H1 H2]; auto.
      * rewrite length_app. simpl. rewrite Nat.add_1_r. exact Hencl.
      * simpl. rewrite Hstack. symmetry. apply app_assoc.
      * split; [|exact H2]. rewrite H1. simpl. apply hd_snoc.
    + (* Q *)
      destruct frames as [|g frames _] using rev_ind; [discriminate|].
      rewrite length_app in Hencl. simpl in Hencl.
      rewrite Nat.add_1_r in Hencl.
      unfold processOp in Hstep. rewrite Hop in Hstep.
      rewrite Hstack, app_assoc, last_snoc, removelast_last in Hstep.
      inversion Hstep; subst; clear Hstep.
      destruct (IH frames base
                  (set_gStack (base ++ frames)%list (set_gState g e)) e'
                  Hencl eq_refl Hrun) as [H1 H2].
      split; [|exact H2]. rewrite H1. simpl. symmetry. apply hd_snoc.
    + (* cm *)
      apply andb_true_iff in Hencl as [Hdepth Hencl].
      apply Nat.ltb_lt in Hdepth.
      assert (Hs : gStack e1 = gStack e).
      { unfold processOp in Hstep. rewrite Hop in Hstep.
        destruct (length (Operands op) =? 6)%nat;
          [destruct (argsToMatrix (Operands op)); [|discriminate]|];
          inversion Hstep; reflexivity. }
      destruct (IH frames base e1 e' Hencl ltac:(congruence) Hrun) as [H1 H2].
      split; [|exact H2]. rewrite H1. apply hd_nonempty. exact Hdepth.
Qed.

Lemma argsToMatrix_six args :
  (length args =? 6)%nat = true -> exists m, argsToMatrix args = Done m.
Proof.
  destruct args as [|a0 [|a1 [|a2 [|a3 [|a4 [|a5 rest]]]]]];
    simpl; intros Hlen; try discriminate; eauto.
Qed.

(** An operation with the operands its case indexes does not panic. *)
Lemma processOp_total e op :
  operandsOk op = true -> exists e', processOp e op = Done e'.
Proof.
  unfold operandsOk, processOp. intros Hok.
  destruct (opcodeOf (Operator op));
    try (destruct (length (Operands op) =? 6)%nat eqn:Hlen;
         [destruct (argsToMatrix_six _ Hlen) as [m ->]|]; eauto; fail);
    try (destruct (Operands op) as [|o0 [|o1 rest]]; simpl in Hok;
         try discriminate; try destruct o0; eauto; fail).
  destruct (last (gStack e)); eauto.
Qed.

Lemma processOps_total ops : forall e,
  forallb operandsOk ops = true -> exists e', processOps e ops = Done e'.
Proof.
  induction ops as [|op ops IH]; intros e Hok; simpl.
  - eauto.
  - simpl in Hok. apply andb_true_iff in Hok as [Hop Hops].
    destruct (processOp_total e op Hop) as [e1 ->]. apply IH, Hops.
Qed.

(** Every operator other than [q] and [Q] leaves the graphics stack as it
    is. *)
Lemma processOp_stack_frame e op e' :
  processOp e op = Done e' ->
  opcodeOf (Operator op) <> Op_q ->
  opcodeOf (Operator op) <> Op_Q ->
  gStack e' = gStack e.
Proof.
  intros Hstep Hq HQ.
  destruct (opcodeOf (Operator op)) eqn:Hop; try congruence;
    try (apply (processOp_graphics_frame e op e' Hstep); congruence).
  unfold processOp in Hstep. rewrite Hop in Hstep.
  destruct (length (Operands op) =? 6)%nat;
    [destruct (argsToMatrix (Operands op)); [|discriminate]|];
    inversion Hstep; reflexivity.
Qed.

(** Balance alone gives back the graphics stack, whatever [cm] did to the
    CTM on the way. *)
Lemma balanced_restores_stack ops : forall frames base e e',
  balancedFrom (length frames) ops = true ->
  gStack e = (base ++ frames)%list ->
  processOps e ops = Done e' ->
  gStack e' = base.
Proof.
  induction ops as [|op ops IH]; intros frames base e e' Hbal Hstack Hrun.
  - simpl in *. apply Nat.eqb_eq in Hbal.
    destruct frames; [|discriminate].
    inversion Hrun; subst. rewrite app_nil_r in Hstack. exact Hstack.
  - simpl in Hbal, Hrun.
    destruct (processOp e op) as [e1|] eqn:Hstep; [|discriminate].
    destruct (opcodeOf (Operator op)) eqn:Hop;
      try (apply (IH frames base e1 e' Hbal); [|exact Hrun];
           rewrite <- Hstack;
           apply (processOp_stack_frame e op e1 Hstep); congruence).
    + unfold processOp in Hstep. rewrite Hop in Hstep.
      inversion Hstep; subst; clear Hstep.
      apply (IH (frames ++ [gState e])%list base
                (set_gStack (gStack e ++ [gState e])%list e) e').
      * rewrite length_app. simpl. rewrite Nat.add_1_r. exact Hbal.
      * simpl. rewrite Hstack. symmetry. apply app_assoc.
      * exact Hrun.
    + destruct frames as [|g frames _] using rev_ind; [discriminate|].
      rewrite length_app in Hbal. simpl in Hbal.
      rewrite Nat.add_1_r in Hbal.
      unfold processOp in Hstep. rewrite Hop in Hstep.
      rewrite Hstack, app_assoc, last_snoc, removelast_last in Hstep.
      inversion Hstep; subst; clear Hstep.
      apply (IH frames base
                (set_gStack (base ++ frames)%list (set_gState g e)) e'
                Hbal eq_refl Hrun).
Qed.

(** The sequences of the amended law are among the balanced ones. *)
Lemma enclosedFrom_balancedFrom ops : forall depth,
  enclosedFrom depth ops = true -> balancedFrom depth ops = true.
Proof.
  induction ops as [|op ops IH]; intros depth; simpl; [auto|].
  destruct (opcodeOf (Operator op)); auto.
  - destruct depth; auto.
  - intros H. apply andb_true_iff in H as [_ H]. auto.
Qed.

(** C6, as amended: when the [q]/[Q] of a sequence are balanced and every
    [cm] of it stands inside a [q]...[Q] pair, a run of the sequence that has
    the operands it indexes ends, and ends with the CTM (and the graphics
    stack) it started with. *)
Theorem qQ_bracket_law e ops :
  cm_enclosed ops = true ->
  forallb operandsOk ops = true ->
  exists e', processOps e ops = Done e'
             /\ CTM (gState e') = CTM (gState e)
             /\ gStack e' = gStack e.
Proof.
  intros Hencl Hok.
  destruct (processOps_total ops e Hok) as [e' Hrun].
  exists e'. split; [exact Hrun|].
  destruct (bracket_general ops [] (gStack e) e e') as [H1 H2]; auto.
  - symmetry. apply app_nil_r.
  - simpl in H1. rewrite H1. auto.
Qed.

Lemma qQ_bracket_law_witness :
  cm_enclosed sampleBracket = true /\
  forallb operandsOk sampleBracket = true /\
  exists e', processOps emptyExtractor sampleBracket = Done e'
             /\ CTM (gState e') = CTM (gState emptyExtractor)
             /\ gStack e' = gStack emptyExtractor.
Proof.
  split; [reflexivity|]. split; [reflexivity|].
  apply (qQ_bracket_law emptyExtractor sampleBracket); reflexivity.
Defined.

(** C6 as stated fails: a lone [cm] is a sequence whose [q]/[Q] are
    balanced, and it ends with a CTM other than the one it started with. *)
Lemma qQ_balanced_cm_counterexample :
  qQ_balanced [op_cm_scale2] = true /\
  exists e', processOps emptyExtractor [op_cm_scale2] = Done e'
             /\ CTM (gState e') <> CTM (gState emptyExtractor).
Proof.
  split; [reflexivity|].
  eexists. split; [reflexivity|].
  intros Heq. apply (f_equal (fun m => PrimFloat.eqb (M0 m) 1)) in Heq.
  vm_compute in Heq. discriminate Heq.
Qed.

(** ** Operators that index a missing operand *)

(** C4, evaluated: with an empty operand list the cases of [Tc], [Tw],
    [Tz], [TL], [Tf], [Td] and [TD] index [op.Operands[0]] and panic, from
    any extractor state; the operation is not skipped. *)
Theorem processOp_missing_operand_panics e :
  processOp e (mkOperation "Tc" []) = Panic /\
  processOp e (mkOperation "Tw" []) = Panic /\
  processOp e (mkOperation "Tz" []) = Panic /\
  processOp e (mkOperation "TL" []) = Panic /\
  processOp e (mkOperation "Tf" []) = Panic /\
  processOp e (mkOperation "Td" []) = Panic /\
  processOp e (mkOperation "TD" []) = Panic.
Proof. repeat split; reflexivity. Qed.

(** The sibling cases that do check: [cm], [Tm] and [Tj] with no operand
    leave the extractor as it is. *)
Lemma processOp_guarded_cases_skip e :
  processOp e (mkOperation "cm" []) = Done e /\
  processOp e (mkOperation "Tm" []) = Done e /\
  processOp e (mkOperation "Tj" []) = Done e.
Proof. repeat split; reflexivity. Qed.

(** From the loader: one page whose content stream parses to a bare [Tc]
    takes the whole document with it, the other pages included. *)
Lemma LoadPDF_bare_Tc_panics :
  LoadPDF bareTcParse sampleLoadFont (Ok sampleReader) = Panicked.
Proof. vm_compute. reflexivity. Qed.

(** A panic in one operation ends the run of the whole sequence. *)
Lemma processOps_panic_propagates e ops1 op ops2 e1 :
  processOps e ops1 = Done e1 ->
  processOp e1 op = Panic ->
  processOps e (ops1 ++ op :: ops2) = Panic.
Proof.
  revert e. induction ops1 as [|o ops1 IH]; intros e Hrun Hop; simpl in *.
  - inversion Hrun; subst. rewrite Hop. reflexivity.
  - destruct (processOp e o); [|discriminate]. apply IH; assumption.
Qed.

(** Running a sequence is running its first part and then, from the state
    reached, its second part. *)
Lemma processOps_app ops1 ops2 : forall e,
  processOps e (ops1 ++ ops2)
  = match processOps e ops1 with
    | Done e1 => processOps e1 ops2
    | Panic => Panic
    end.
Proof.
  induction ops1 as [|op ops1 IH]; intros e; simpl; [reflexivity|].
  destruct (processOp e op); [apply IH | reflexivity].
Qed.

(** ** Tf with a name the font table does not have *)

(** C9: a [Tf] whose first operand names no font of the table keeps the
    current font, sets the font size from the second operand, and changes
    nothing else, in the text state or outside it. *)
Theorem Tf_unknown_font_frame e name size rest :
  fonts e !! name = None ->
  exists e',
    processOp e (mkOperation "Tf" (NameObject name :: size :: rest)) = Done e'
    /\ ts_Font (textState e') = ts_Font (textState e)
    /\ FontSize (textState e') = number size
    /\ CharSpacing (textState e') = CharSpacing (textState e)
    /\ WordSpacing (textState e') = WordSpacing (textState e)
    /\ Scale (textState e') = Scale (textState e)
    /\ Leading (textState e') = Leading (textState e)
    /\ Rise (textState e') = Rise (textState e)
    /\ TM (textState e') = TM (textState e)
    /\ TLM (textState e') = TLM (textState e)
    /\ graphics_eq e' e
    /\ fonts e' = fonts e /\ page e' = page e
    /\ lastX e' = lastX e /\ lastY e' = lastY e /\ buffer e' = buffer e.
Proof.
  intros Hmiss. eexists. split.
  - unfold processOp. simpl. rewrite Hmiss. reflexivity.
  - repeat split; reflexivity.
Qed.

Lemma Tf_unknown_font_frame_witness :
  exists e',
    processOp emptyExtractor
      (mkOperation "Tf" [NameObject "/F9"; num 12]) = Done e'
    /\ ts_Font (textState e') = None
    /\ FontSize (textState e') = 12%float.
Proof.
  destruct (Tf_unknown_font_frame emptyExtractor "/F9" (num 12) [] eq_refl)
    as (e' & Hrun & Hfont & Hsize & _).
  exists e'. repeat split; assumption.
Defined.

(** ** The show-string routine: advance of the text matrix *)

Lemma sumWidths_fold f rawBytes : forall acc,
  fold_left (fun totalWidth b =>
               let w := match Widths f !! byteInt b with
                        | Some val => val
                        | None => MissingW f
                        end in
               (totalWidth + w)%float) rawBytes acc
  = fold_left PrimFloat.add (map (widthOrMissing f) rawBytes) acc.
Proof.
  induction rawBytes as [|b rest IH]; intros acc; simpl.
  - reflexivity.
  - rewrite IH. reflexivity.
Qed.

Lemma activeWidths_nonempty t f :
  ts_Font t = Some f -> Widths f <> ∅ -> activeWidths t = Some f.
Proof.
  intros Hf Hne. unfold activeWidths. rewrite Hf.
  destruct (0 <? size (Widths f))%nat eqn:Hsize; [reflexivity|].
  apply Nat.ltb_ge in Hsize. exfalso. apply Hne.
  apply map_size_empty_iff. lia.
Qed.

Lemma activeWidths_none t :
  ts_Font t = None \/ (exists f, ts_Font t = Some f /\ Widths f = ∅) ->
  activeWidths t = None.
Proof.
  unfold activeWidths. intros [-> | (f & -> & Hempty)]; [reflexivity|].
  rewrite Hempty, map_size_empty. reflexivity.
Qed.

(** C1: a show of a string operand moves TM[4] and TM[5] by the advance
    width times TM[0] and TM[1].  With a non-empty widths table the advance
    is (sum of the bytes' widths / 1000 * size + byte count * char spacing
    + space count of the decoded text * word spacing) * (scale / 100);
    without one it is decoded length * size * 0.5 * (scale / 100).  The
    other four entries of TM stay. *)
Theorem handleText_advance e obj rawBytes :
  rawBytesOf obj = Some rawBytes ->
  let t := textState e in
  let t' := textState (handleText e obj) in
  let decoded := decodeText t rawBytes in
  exists advance : float,
    M4 (TM t') = (M4 (TM t) + advance * M0 (TM t))%float
    /\ M5 (TM t') = (M5 (TM t) + advance * M1 (TM t))%float
    /\ (M0 (TM t') = M0 (TM t) /\ M1 (TM t') = M1 (TM t)
        /\ M2 (TM t') = M2 (TM t) /\ M3 (TM t') = M3 (TM t))
    /\ (forall f, ts_Font t = Some f -> Widths f <> ∅ ->
          advance =
          ((fold_left PrimFloat.add (map (widthOrMissing f) rawBytes) 0
              / 1000 * FontSize t
            + float64_of_len (length rawBytes) * CharSpacing t
            + float64_of_len (Count_space decoded) * WordSpacing t)
           * (Scale t / 100))%float)
    /\ (ts_Font t = None \/ (exists f, ts_Font t = Some f /\ Widths f = ∅) ->
          advance =
          (float64_of_len (String.length decoded) * FontSize t * 0.5
           * (Scale t / 100))%float).
Proof.
  intros Hraw t t' decoded.
  exists (totalWidthOf t rawBytes decoded).
  subst t'. unfold handleText. rewrite Hraw. simpl.
  repeat split.
  - intros f Hf Hne. unfold totalWidthOf.
    rewrite (activeWidths_nonempty t f Hf Hne).
    unfold sumWidths. rewrite sumWidths_fold. reflexivity.
  - intros Hnone. unfold totalWidthOf.
    rewrite (activeWidths_none t Hnone). reflexivity.
Qed.

Lemma handleText_advance_witness :
  exists advance : float,
    M4 (TM (textState (handleText sampleExtractor (StringObject "AB"))))
    = (100 + advance * 1)%float
    /\ advance = 12%float.
Proof.
  destruct (handleText_advance sampleExtractor (StringObject "AB")
              (bytes_of_string "AB") eq_refl)
    as (advance & H4 & _ & _ & Hwidths & _).
  exists advance. split; [exact H4|].
  rewrite (Hwidths sampleFont eq_refl).
  - vm_compute. reflexivity.
  - intros Hempty.
    apply (f_equal (fun m : gmap Z float => size m)) in Hempty.
    vm_compute in Hempty. discriminate Hempty.
Defined.

(** The four ways into the routine: [Tj] and the two quote operators show
    their string operand, [TJ] shows each element that is not a number. *)
Lemma processOp_Tj_shows e obj rest :
  processOp e (mkOperation "Tj" (obj :: rest)) = Done (handleText e obj).
Proof. reflexivity. Qed.

Lemma processOp_quote_shows e obj rest :
  processOp e (mkOperation "'" (obj :: rest))
  = Done (handleText (opTstar e) obj).
Proof. reflexivity. Qed.

Lemma processOp_dquote_shows e aw ac obj rest :
  processOp e (mkOperation DQUOTE (aw :: ac :: obj :: rest))
  = Done (handleText
            (opTstar (set_textState
                        (set_CharSpacing (number ac)
                           (set_WordSpacing (number aw) (textState e))) e))
            obj).
Proof. reflexivity. Qed.

Lemma opTJ_elem_shows e obj rawBytes :
  rawBytesOf obj = Some rawBytes -> opTJ_elem e obj = handleText e obj.
Proof. destruct obj; simpl; intros H; try discriminate; reflexivity. Qed.

(** ** The show-string routine: reconstructed white space *)

Lemma length_pos_nonempty (s : string) :
  (0 <? String.length s)%nat = true <-> s <> "".
Proof.
  destruct s; simpl; split; intros H; try congruence; try reflexivity.
  discriminate.
Qed.

Lemma NL_neq_SP : NL <> SP.
Proof. discriminate. Qed.

(** The threshold of the space test: half the user-space space width when
    the font is known and that width is positive, a fifth of the font size
    in every other case. *)
Lemma thresholdOf_cases t :
  (forall f, ts_Font t = Some f ->
     (0 <? spaceWidthUser f t)%float = true ->
     thresholdOf t = (spaceWidthUser f t * 0.5)%float)
  /\ (ts_Font t = None
      \/ (exists f, ts_Font t = Some f
                    /\ (0 <? spaceWidthUser f t)%float = false) ->
      thresholdOf t = (FontSize t * 0.2)%float).
Proof.
  unfold thresholdOf, spaceWidthOf, spaceWidthUser. split.
  - intros f -> Hpos. rewrite Hpos. reflexivity.
  - intros [-> | (f & -> & Hneg)].
    + reflexivity.
    + rewrite Hneg. reflexivity.
Qed.

(** C2, as amended: before the text of a shown string, with (x, y) the
    start position from TM x CTM, a newline is written exactly when
    |y - lastY| > size * 0.5 and the buffer is not empty; failing that, one
    space is written exactly when x - lastX exceeds the threshold, the
    buffer is not empty and it ends in neither a newline nor a space;
    nothing else is ever written before the text.  The threshold is half
    the user-space space width when the font is known and that width is
    positive, and size * 0.2 otherwise. *)
Theorem handleText_separator e obj rawBytes :
  rawBytesOf obj = Some rawBytes ->
  let t := textState e in
  let fm := Mult (TM t) (CTM (gState e)) in
  let x := M4 fm in
  let y := M5 fm in
  let newline :=
    (FontSize t * 0.5 <? abs (y - lastY e))%float = true /\ buffer e <> "" in
  exists sep threshold,
    buffer (handleText e obj) = (buffer e ++ sep) ++ decodeText t rawBytes
    /\ (sep = NL \/ sep = SP \/ sep = "")
    /\ (sep = NL <-> newline)
    /\ (sep = SP <->
        ~ newline
        /\ (threshold <? x - lastX e)%float = true
        /\ buffer e <> ""
        /\ HasSuffix (buffer e) NL = false
        /\ HasSuffix (buffer e) SP = false)
    /\ (forall f, ts_Font t = Some f ->
          (0 <? spaceWidthUser f t)%float = true ->
          threshold = (spaceWidthUser f t * 0.5)%float)
    /\ (ts_Font t = None
        \/ (exists f, ts_Font t = Some f
                      /\ (0 <? spaceWidthUser f t)%float = false) ->
        threshold = (FontSize t * 0.2)%float).
Proof.
  intros Hraw t fm x y newline.
  exists (separatorOf e x y), (thresholdOf t).
  split; [unfold handleText; rewrite Hraw; reflexivity|].
  destruct (thresholdOf_cases t) as [Hknown Hother].
  repeat match goal with |- _ /\ _ => split end;
    try exact Hknown; try exact Hother;
    subst newline; unfold separatorOf; fold t;
    destruct (FontSize t * 0.5 <? abs (y - lastY e))%float eqn:Hy;
    destruct (0 <? String.length (buffer e))%nat eqn:Hlen;
    destruct (thresholdOf t <? x - lastX e)%float eqn:Hgap;
    destruct (HasSuffix (buffer e) NL) eqn:Hnl;
    destruct (HasSuffix (buffer e) SP) eqn:Hsp;
    simpl;
    try (apply length_pos_nonempty in Hlen);
    try (assert (buffer e = "")
           by (destruct (buffer e); [reflexivity | discriminate Hlen]));
    auto;
    try (split; intros Hx; try discriminate Hx;
         try (exfalso; intuition congruence);
         try (intuition congruence); fail).
Qed.

Lemma handleText_separator_witness :
  exists sep threshold,
    buffer (handleText sampleExtractor (StringObject "AB"))
    = ("Hello" ++ sep) ++ "AB"
    /\ sep = SP
    /\ threshold = 1.5%float.
Proof.
  destruct (handleText_separator sampleExtractor (StringObject "AB")
              (bytes_of_string "AB") eq_refl)
    as (sep & threshold & Hbuf & _ & _ & Hsp & Hthr & _).
  exists sep, threshold. split; [exact Hbuf|]. split.
  - apply Hsp. vm_compute. repeat split; try reflexivity.
    + intros [Hy _]. discriminate Hy.
    + rewrite (Hthr sampleFont eq_refl eq_refl). reflexivity.
    + discriminate.
  - rewrite (Hthr sampleFont eq_refl eq_refl). reflexivity.
Defined.

(** C2 as stated fails: with a known font of space width 250 under a
    horizontal scale of -100 the user-space space width is -3, so the
    threshold of the claim is 0.5 * (-3); the start position is within half
    a font size of the last line, x - lastX = 1 exceeds that threshold, the
    buffer is [A]; yet no space is written. *)
Lemma separator_threshold_counterexample :
  let e := negScaleExtractor in
  let t := textState e in
  let fm := Mult (TM t) (CTM (gState e)) in
  ts_Font t = Some sampleFont
  /\ PrimFloat.eqb (SpaceWidth sampleFont) 0 = false
  /\ PrimFloat.eqb (spaceWidthUser sampleFont t) 0 = false
  /\ (FontSize t * 0.5 <? abs (M5 fm - lastY e))%float = false
  /\ (0.5 * spaceWidthUser sampleFont t <? M4 fm - lastX e)%float = true
  /\ buffer e = "A"
  /\ HasSuffix (buffer e) NL = false
  /\ HasSuffix (buffer e) SP = false
  /\ buffer (handleText e (StringObject "B")) = "AB".
Proof. vm_compute. repeat split; reflexivity. Qed.

(** ** The show-string routine: decoding *)

(** One step of the loop at a position with at least two bytes left and
    the two-byte key in the map: both bytes are taken. *)
Lemma decodeLoop_two_byte_hit m b b' rest decoded val :
  m !! Sprintf04X (Z.lor (Z.shiftl (byteInt b) 8) (byteInt b')) = Some val ->
  decodeLoop m (b :: b' :: rest) decoded = decodeLoop m rest (decoded ++ val).
Proof. intros Hhit. simpl. rewrite Hhit. reflexivity. Qed.

(** The two-byte key missing (or one byte left) and the one-byte key in
    the map: one byte is taken. *)
Lemma decodeLoop_one_byte_hit m b rest decoded val :
  match rest with
  | b' :: _ =>
      m !! Sprintf04X (Z.lor (Z.shiftl (byteInt b) 8) (byteInt b')) = None
  | [] => True
  end ->
  m !! Sprintf04X (byteInt b) = Some val ->
  decodeLoop m (b :: rest) decoded = decodeLoop m rest (decoded ++ val).
Proof.
  intros Hmiss2 Hhit. destruct rest as [|b' rest]; simpl.
  - rewrite Hhit. reflexivity.
  - rewrite Hmiss2, Hhit. reflexivity.
Qed.

(** Both keys missing: the byte goes through [string(b)], the UTF-8
    encoding of the Latin-1 character with that code. *)
Lemma decodeLoop_miss m b rest decoded :
  match rest with
  | b' :: _ =>
      m !! Sprintf04X (Z.lor (Z.shiftl (byteInt b) 8) (byteInt b')) = None
  | [] => True
  end ->
  m !! Sprintf04X (byteInt b) = None ->
  decodeLoop m (b :: rest) decoded
  = decodeLoop m rest (decoded ++ string_of_rune b).
Proof.
  intros Hmiss2 Hmiss1. destruct rest as [|b' rest]; simpl.
  - rewrite Hmiss1. reflexivity.
  - rewrite Hmiss2, Hmiss1. reflexivity.
Qed.

Lemma string_app_assoc (s1 s2 s3 : string) :
  (s1 ++ s2) ++ s3 = s1 ++ (s2 ++ s3).
Proof.
  induction s1 as [|c s1 IH]; [reflexivity|].
  change (String c ((s1 ++ s2) ++ s3) = String c (s1 ++ (s2 ++ s3))).
  f_equal. exact IH.
Qed.

Lemma string_app_empty_r (s : string) : s ++ "" = s.
Proof.
  induction s as [|c s IH]; [reflexivity|].
  change (String c (s ++ "") = String c s). f_equal. exact IH.
Qed.

(** The loop only ever appends to [decoded]. *)
Lemma decodeLoop_appends m rawBytes : forall decoded,
  decodeLoop m rawBytes decoded = decoded ++ decodeLoop m rawBytes "".
Proof.
  remember (length rawBytes) as n eqn:Hn. revert rawBytes Hn.
  induction n as [n IH] using lt_wf_ind. intros rawBytes Hn decoded.
  assert (Hrec : forall bs acc v, (length bs < n)%nat ->
            decodeLoop m bs (acc ++ v) = acc ++ decodeLoop m bs ("" ++ v)).
  { intros bs acc v Hlt.
    rewrite (IH (length bs) Hlt bs eq_refl (acc ++ v)).
    rewrite (IH (length bs) Hlt bs eq_refl ("" ++ v)).
    simpl. apply string_app_assoc. }
  destruct rawBytes as [|b rest]; [symmetry; apply string_app_empty_r|].
  simpl in Hn.
  assert (Hkey2 :
    (exists val,
       match rest with
       | b' :: rest' =>
           m !! Sprintf04X (Z.lor (Z.shiftl (byteInt b) 8) (byteInt b'))
           = Some val
           /\ forall acc, decodeLoop m (b :: rest) acc
                          = decodeLoop m rest' (acc ++ val)
       | [] => False
       end)
    \/ match rest with
       | b' :: _ =>
           m !! Sprintf04X (Z.lor (Z.shiftl (byteInt b) 8) (byteInt b')) = None
       | [] => True
       end).
  { destruct rest as [|b' rest']; [right; exact I|].
    destruct (m !! Sprintf04X (Z.lor (Z.shiftl (byteInt b) 8) (byteInt b')))
      as [val|] eqn:H2; [left | right; reflexivity].
    exists val. split; [reflexivity|]. intros acc.
    apply decodeLoop_two_byte_hit, H2. }
  destruct Hkey2 as [(val & Hhit) | Hmiss2].
  - destruct rest as [|b' rest']; [contradiction|].
    destruct Hhit as [_ Hstep]. rewrite !Hstep.
    apply Hrec. simpl in Hn. lia.
  - destruct (m !! Sprintf04X (byteInt b)) as [val|] eqn:H1.
    + rewrite !(decodeLoop_one_byte_hit m b rest _ val Hmiss2 H1).
      apply Hrec. lia.
    + rewrite !(decodeLoop_miss m b rest _ Hmiss2 H1).
      apply Hrec. lia.
Qed.

(** Below 0x80 the two ways of emitting a byte agree. *)
Lemma string_of_rune_ascii b :
  (Byte.to_N b < 128)%N -> string_of_rune b = string_of_bytes [b].
Proof.
  intros Hlt. destruct b; try reflexivity;
    vm_compute in Hlt; discriminate Hlt.
Qed.

(** C3, evaluated at the byte 0xE9: with no font, and with a font whose
    CMap is empty, the byte is copied to the text as it is (one byte, not
    valid UTF-8); with a CMap that has no entry for it, the same byte is
    emitted as the Latin-1 character U+00E9, the two bytes 0xC3 0xA9. *)
Theorem decodeText_high_byte_paths_differ :
  decodeText NewTextState [xe9]%byte = String "233"%char ""
  /\ decodeText (set_Font (Some sampleFont) NewTextState) [xe9]%byte
     = String "233"%char ""
  /\ decodeText (set_Font (Some sampleCMapFont) NewTextState) [xe9]%byte
     = String "195"%char (String "169"%char "").
Proof. repeat split; vm_compute; reflexivity. Qed.

(** ** Inline images *)

Lemma scanEI_marker rest :
  markerEnds rest = true -> scanEI ("E"%byte :: "I"%byte :: rest) = Some rest.
Proof.
  intros Hends. destruct rest as [|after rest]; simpl in *.
  - reflexivity.
  - rewrite Hends. reflexivity.
Qed.

(** What the scan returns is what follows an [EI] that is itself followed
    by the end of the data, white space or a delimiter. *)
Lemma scanEI_sound input : forall rest,
  scanEI input = Some rest -> exists pre, markerAt pre rest input.
Proof.
  remember (length input) as n eqn:Hn. revert input Hn.
  induction n as [n IH] using lt_wf_ind. intros input Hn rest Hscan.
  destruct input as [|b input1]; [discriminate|].
  simpl in Hscan, Hn.
  destruct (Byte.eqb b "E") eqn:HE.
  - apply Byte.byte_dec_bl in HE. subst b.
    destruct input1 as [|next input2]; [discriminate|].
    destruct (Byte.eqb next "I") eqn:HI.
    + apply Byte.byte_dec_bl in HI. subst next.
      destruct (markerEnds input2) eqn:Hends.
      * exists []. assert (rest = input2) as ->.
        { destruct input2 as [|after input3]; simpl in *.
          - congruence.
          - rewrite Hends in Hscan. congruence. }
        split; [reflexivity | exact Hends].
      * destruct input2 as [|after input3]; [discriminate|].
        simpl in Hends. rewrite Hends in Hscan.
        destruct (IH (length (after :: input3)) ltac:(simpl in *; lia)
                     (after :: input3) eq_refl rest Hscan)
          as (pre & Heq & Hok).
        exists ("E"%byte :: "I"%byte :: pre). split; [|exact Hok].
        simpl. rewrite Heq. reflexivity.
    + destruct (IH (length (next :: input2)) ltac:(simpl in *; lia)
                   (next :: input2) eq_refl rest Hscan)
        as (pre & Heq & Hok).
      exists ("E"%byte :: pre). split; [|exact Hok].
      simpl. rewrite Heq. reflexivity.
  - destruct (IH (length input1) ltac:(lia) input1 eq_refl rest Hscan)
      as (pre & Heq & Hok).
    exists (b :: pre). split; [|exact Hok].
    simpl. rewrite Heq. reflexivity.
Qed.

Lemma noMarkerBefore_drop front pre tail :
  noMarkerBefore (front ++ pre) (front ++ pre ++ tail) ->
  noMarkerBefore pre (pre ++ tail).
Proof.
  intros Hno pre1 rest1 Heq Hlen.
  apply (Hno (front ++ pre1)%list rest1).
  - rewrite Heq, <- app_assoc. reflexivity.
  - rewrite !length_app. lia.
Qed.

(** The scan stops at the first [EI] that is followed by the end of the
    data, white space or a delimiter; what stands before the marker plays
    no part. *)
Lemma scanEI_first pre : forall rest,
  markerEnds rest = true ->
  noMarkerBefore pre (pre ++ "E"%byte :: "I"%byte :: rest) ->
  scanEI (pre ++ "E"%byte :: "I"%byte :: rest) = Some rest.
Proof.
  remember (length pre) as n eqn:Hn. revert pre Hn.
  induction n as [n IH] using lt_wf_ind. intros pre Hn rest Hends Hno.
  destruct pre as [|b pre1].
  - apply scanEI_marker, Hends.
  - assert (Htail : scanEI (pre1 ++ "E"%byte :: "I"%byte :: rest) = Some rest).
    { apply (IH (length pre1)); [simpl in Hn; lia | reflexivity | exact Hends |].
      apply (noMarkerBefore_drop [b]). exact Hno. }
    change (scanEI (b :: (pre1 ++ "E"%byte :: "I"%byte :: rest)) = Some rest).
    cbn [scanEI]. destruct (Byte.eqb b "E") eqn:HE; [|exact Htail].
    apply Byte.byte_dec_bl in HE. subst b.
    destruct pre1 as [|c pre2].
    + exact Htail.
    + cbn [app]. destruct (Byte.eqb c "I") eqn:HI; [|exact Htail].
      apply Byte.byte_dec_bl in HI. subst c.
      assert (Hbad : markerEnds (pre2 ++ "E"%byte :: "I"%byte :: rest) = false).
      { apply (Hno [] _ eq_refl). simpl. lia. }
      assert (Hnext : scanEI (pre2 ++ "E"%byte :: "I"%byte :: rest) = Some rest).
      { apply (IH (length pre2)); [simpl in Hn; lia | reflexivity | exact Hends |].
        apply (noMarkerBefore_drop ["E"%byte; "I"%byte]). exact Hno. }
      destruct pre2 as [|d pre3]; simpl in Hbad |- *.
      * exact Hnext.
      * rewrite Hbad. exact Hnext.
Qed.

(** C5, evaluated: in the data [xEI y EI Q] (after the line feed that ends
    [ID]) the scan stops at the first [EI], which stands right after [x], a
    byte that is neither white space nor a delimiter; the bytes from [ y]
    on, the marker with white space on both sides among them, are left to
    be read as operators. *)
Theorem skipImageData_stops_after_regular_byte :
  skipImageData (bytes_of_string (NL ++ "xEI y EI Q"))
  = Some (bytes_of_string " y EI Q")
  /\ markerAt ["x"%byte] (bytes_of_string " y EI Q")
              (bytes_of_string "xEI y EI Q")
  /\ isWhitespace "x" || isDelimiter "x" = false.
Proof. repeat split; vm_compute; reflexivity. Qed.

Section ParserProperties.
Variable skipWhitespace : list byte -> list byte.
Variable ReadObject : list byte -> Result (Object * list byte).

(** On the keyword [BI], once the dictionary and the data are read,
    [Next] hands back one [INLINE_IMAGE] operation whose only operand is
    the image dictionary, and the operand buffer is empty again. *)
Lemma Next_inline_image fuel p input1 imageDict input2 rest :
  eof p = false ->
  skipWhitespace (lexer p) <> [] ->
  ReadObject (skipWhitespace (lexer p)) = Ok (KeywordObject "BI", input1) ->
  readImageDict skipWhitespace ReadObject fuel ∅ input1
  = Some (Ok (imageDict, input2)) ->
  skipImageData input2 = Some rest ->
  Next skipWhitespace ReadObject (S fuel) p
  = Some (NextOp (mkOperation "INLINE_IMAGE" [DictionaryObject imageDict])
                 (mkParser rest [] false)).
Proof.
  intros Heof Hne Hread Hdict Hdata. cbn [Next]. rewrite Heof.
  destruct (skipWhitespace (lexer p)) as [|b input] eqn:Hskip;
    [congruence|].
  rewrite Hread. cbn [String.eqb Ascii.eqb Bool.eqb].
  unfold skipInlineImage. cbn [lexer eof]. rewrite Hdict, Hdata.
  reflexivity.
Qed.
End ParserProperties.

(** The extractor has no case for [INLINE_IMAGE]: the operation writes no
    text and changes nothing. *)
Lemma processOp_inline_image e operands :
  processOp e (mkOperation "INLINE_IMAGE" operands) = Done e.
Proof. reflexivity. Qed.

(** ** ExtractText: the /Contents entry *)

Section ExtractionProperties.
Variable Resolve : option Object -> option Object.
Variable Parse : list byte -> Result (list Operation).
Variable loadFont : gmap string Object -> Font.

Lemma collectStreams_fold arr : forall streams,
  fold_left (fun streams ref =>
               match asStream (Resolve (Some ref)) with
               | Some s => (streams ++ [s])%list
               | None => streams
               end) arr streams
  = (streams ++ omap (fun ref => asStream (Resolve (Some ref))) arr)%list.
Proof.
  induction arr as [|ref arr IH]; intros streams; simpl.
  - symmetry. apply app_nil_r.
  - rewrite IH. destruct (asStream (Resolve (Some ref))); simpl.
    + rewrite <- app_assoc. reflexivity.
    + reflexivity.
Qed.

(** For an array, the streams are the elements that resolve to a stream,
    in the order of the array. *)
Lemma collectStreams_array arr :
  collectStreams Resolve (Some (ArrayObject arr))
  = omap (fun ref => asStream (Resolve (Some ref))) arr.
Proof. unfold collectStreams. apply collectStreams_fold. Qed.

(** An element that does not resolve to a stream leaves no trace. *)
Lemma collectStreams_skip arr1 ref arr2 :
  asStream (Resolve (Some ref)) = None ->
  collectStreams Resolve (Some (ArrayObject (arr1 ++ ref :: arr2)))
  = collectStreams Resolve (Some (ArrayObject (arr1 ++ arr2))).
Proof.
  intros Hskip. rewrite !collectStreams_array, !omap_app. simpl.
  rewrite Hskip. reflexivity.
Qed.

Lemma collectStreams_neither contents :
  asStream contents = None ->
  (forall arr, contents <> Some (ArrayObject arr)) ->
  collectStreams Resolve contents = [].
Proof.
  intros Hstream Harr. unfold collectStreams.
  destruct contents as [[]|]; try reflexivity; simpl in *;
    try discriminate.
  exfalso. eapply Harr. reflexivity.
Qed.

(** One font reference that does not resolve to a dictionary makes the
    loop panic, wherever it stands among the entries. *)
Lemma loadFontEntries_panics entries : forall table name ref,
  (name, ref) ∈ entries ->
  asDictionary (Resolve (Some ref)) = None ->
  loadFontEntries Resolve loadFont entries table = Panic.
Proof.
  induction entries as [|[n r] rest IH]; intros table name ref Hin Hbad.
  - apply elem_of_nil in Hin. contradiction.
  - cbn [loadFontEntries].
    apply elem_of_cons in Hin as [Heq | Hin].
    + inversion Heq; subst n r.
      destruct (Resolve (Some ref)) as [[]|]; try reflexivity.
      discriminate Hbad.
    + destruct (Resolve (Some r)) as [[]|]; try reflexivity.
      eapply IH; eassumption.
Qed.

(** A new extractor keeps the page it was built for and has written
    nothing. *)
Lemma NewExtractor_fresh pg e :
  NewExtractor Resolve loadFont pg = Done e ->
  page e = pg /\ buffer e = "" /\ gStack e = []
  /\ gState e = mkGraphicsState IdentityMatrix
  /\ textState e = NewTextState.
Proof.
  unfold NewExtractor. intros Hnew.
  repeat match type of Hnew with
         | context [match ?x with _ => _ end] => destruct x
         end;
    try discriminate; inversion Hnew; subst; auto.
Qed.

(** Over the elements of an array, with the operations each stream
    parses to: the run is [processOp] over all those operations, stream
    after stream in array order, an element that is no stream giving
    none. *)
Lemma runStreams_array arr opss :
  Forall2 (fun ref ops =>
             match asStream (Resolve (Some ref)) with
             | Some s => Parse (stream_Data s) = Ok ops
             | None => ops = []
             end) arr opss ->
  forall e,
    runStreams Parse e (omap (fun ref => asStream (Resolve (Some ref))) arr)
    = match processOps e (concat opss) with
      | Done e' => Ok (buffer e')
      | Panic => Panicked
      end.
Proof.
  induction 1 as [|ref ops arr opss Hhead _ IH]; intros e; [reflexivity|].
  cbn [omap list_omap concat].
  destruct (asStream (Resolve (Some ref))) as [s|].
  - cbn [runStreams]. rewrite Hhead, processOps_app.
    destruct (processOps e ops) as [e1|]; [apply IH | reflexivity].
  - subst ops. apply IH.
Qed.

(** C10: for the extractor of a page, when /Contents resolves to neither
    a stream nor an array, [ExtractText] returns the empty string and no
    error.  When it resolves to an array whose stream elements all parse,
    an element that does not resolve to a stream contributes no operation,
    and the result is that of [processOp] run over the operations of the
    stream elements, one stream after the other in array order: the text
    of the buffer at the end. *)
Theorem ExtractText_contents pg e :
  NewExtractor Resolve loadFont pg = Done e ->
  let contents := Resolve (pg !! "/Contents") in
  (asStream contents = None ->
   (forall arr, contents <> Some (ArrayObject arr)) ->
   ExtractText Resolve Parse e = Ok "")
  /\ (forall arr opss,
       contents = Some (ArrayObject arr) ->
       Forall2 (fun ref ops =>
                  match asStream (Resolve (Some ref)) with
                  | Some s => Parse (stream_Data s) = Ok ops
                  | None => ops = []
                  end) arr opss ->
       ExtractText Resolve Parse e
       = match processOps e (concat opss) with
         | Done e' => Ok (buffer e')
         | Panic => Panicked
         end).
Proof.
  intros Hnew contents.
  destruct (NewExtractor_fresh pg e Hnew) as (Hpage & Hbuf & _).
  unfold ExtractText. rewrite Hpage. fold contents. split.
  - intros Hstream Harr.
    rewrite (collectStreams_neither contents Hstream Harr). simpl.
    rewrite Hbuf. reflexivity.
  - intros arr opss -> Hparsed. rewrite collectStreams_array.
    apply runStreams_array, Hparsed.
Qed.
End ExtractionProperties.

Lemma ExtractText_contents_witness :
  (exists e,
     NewExtractor sampleResolve sampleLoadFont (pageWith (num 1)) = Done e
     /\ ExtractText sampleResolve sampleParse e = Ok "")
  /\ (exists e,
        NewExtractor sampleResolve sampleLoadFont (pageWith sampleContents)
        = Done e
        /\ ExtractText sampleResolve sampleParse e = Ok "HiYo").
Proof.
  split; eexists; (split; [reflexivity|]).
  - apply (ExtractText_contents sampleResolve sampleParse sampleLoadFont
             (pageWith (num 1)) _ eq_refl).
    + reflexivity.
    + intros arr Harr. vm_compute in Harr. discriminate Harr.
  - rewrite (proj2 (ExtractText_contents sampleResolve sampleParse
                      sampleLoadFont (pageWith sampleContents) _ eq_refl)
               [StreamObject ∅ (bytes_of_string "Hi"); num 1;
                StreamObject ∅ (bytes_of_string "Yo")]
               [[mkOperation "Tj" [StringObject "Hi"]]; [];
                [mkOperation "Tj" [StringObject "Yo"]]]).
    + vm_compute. reflexivity.
    + vm_compute. reflexivity.
    + repeat constructor.
Defined.

(** ** The loader: page records *)

Lemma StronglySorted_seqZ n : forall m, StronglySorted Z.lt (seqZ m n).
Proof.
  remember (Z.to_nat n) as k eqn:Hk. revert n Hk.
  induction k as [|k IH]; intros n Hk m.
  - assert (length (seqZ m n) = 0%nat) as Hlen by (rewrite length_seqZ; lia).
    destruct (seqZ m n); [constructor | discriminate Hlen].
  - rewrite seqZ_cons by lia. constructor.
    + apply IH. lia.
    + apply Forall_forall. intros x Hx. apply elem_of_seqZ in Hx. lia.
Qed.

Lemma StronglySorted_sublist {A} (R : relation A) (l1 l2 : list A) :
  l1 `sublist_of` l2 -> StronglySorted R l2 -> StronglySorted R l1.
Proof.
  induction 1 as [|x l1 l2 Hsub IH|x l1 l2 Hsub IH]; intros Hsorted.
  - constructor.
  - apply StronglySorted_inv in Hsorted as [Hs Hall]. constructor.
    + apply IH, Hs.
    + apply Forall_forall. intros y Hy.
      eapply Forall_forall in Hall; [exact Hall|].
      eapply elem_of_sublist; eassumption.
  - apply StronglySorted_inv in Hsorted as [Hs _]. apply IH, Hs.
Qed.

Section LoaderProperties.
Variable Parse : list byte -> Result (list Operation).
Variable loadFont : gmap string Object -> Font.

(** The record of index [i] carries page number [i + 1], the text, and
    the byte length of the text. *)
Lemma loadPage_record r i pg :
  loadPage Parse loadFont r i = Ok pg ->
  PageNumber pg = (i + 1)%Z
  /\ CharCount pg = Z.of_nat (String.length (Content pg)).
Proof.
  unfold loadPage. intros Hload.
  repeat match type of Hload with
         | context [match ?x with _ => _ end] => destruct x
         end;
    try discriminate; inversion Hload; subst; simpl; auto.
Qed.

(** The loop returns the records of the indices whose page loaded, in
    index order, after the records it started with. *)
Lemma pageLoop_emitted r indices : forall pages pages',
  pageLoop Parse loadFont r indices pages = Ok pages' ->
  pages' = (pages ++ omap (emittedPage Parse loadFont r) indices)%list.
Proof.
  induction indices as [|i rest IH]; intros pages pages' Hloop;
    simpl in Hloop |- *.
  - inversion Hloop. symmetry. apply app_nil_r.
  - unfold emittedPage at 1.
    destruct (loadPage Parse loadFont r i) as [pg| |] eqn:Hload;
      try discriminate.
    + rewrite (IH _ _ Hloop), <- app_assoc. reflexivity.
    + apply IH, Hloop.
Qed.

(** The loop returns unless a page panics. *)
Lemma pageLoop_total r indices : forall pages,
  (forall i, i ∈ indices -> loadPage Parse loadFont r i <> Panicked) ->
  exists pages', pageLoop Parse loadFont r indices pages = Ok pages'.
Proof.
  induction indices as [|i rest IH]; intros pages Hsafe; simpl.
  - eauto.
  - assert (Hrest : forall j, j ∈ rest ->
                      loadPage Parse loadFont r j <> Panicked)
      by (intros j Hj; apply Hsafe; right; exact Hj).
    destruct (loadPage Parse loadFont r i) eqn:Hload; auto.
    exfalso. apply (Hsafe i); [left | exact Hload].
Qed.

Lemma emitted_numbers_sublist r indices :
  (PageNumber <$> omap (emittedPage Parse loadFont r) indices)
    `sublist_of` (Z.add 1 <$> indices).
Proof.
  induction indices as [|i rest IH]; simpl.
  - constructor.
  - unfold emittedPage at 1.
    destruct (loadPage Parse loadFont r i) as [pg| |] eqn:Hload; simpl.
    + destruct (loadPage_record r i pg Hload) as [-> _].
      rewrite (Z.add_comm i 1). apply sublist_skip, IH.
    + apply sublist_cons, IH.
    + apply sublist_cons, IH.
Qed.

Lemma LoadPDF_pages r doc :
  LoadPDF Parse loadFont (Ok r) = Ok doc ->
  Pages doc = omap (emittedPage Parse loadFont r) (seqZ 0 (NumPages r)).
Proof.
  unfold LoadPDF, loadDocument. intros Hdoc.
  destruct (pageLoop Parse loadFont r (seqZ 0 (NumPages r)) [])
    as [pages| |] eqn:Hloop;
    destruct (GetInfo r); destruct (NumPages r <? 0)%Z;
    try discriminate; inversion Hdoc; subst; simpl;
    apply (pageLoop_emitted r _ [] pages Hloop).
Qed.

(** The loader returns a document when nothing panics: [GetInfo], the
    allocation of the page slice, and each page. *)
Lemma LoadPDF_returns r :
  GetInfo r <> Panicked ->
  (0 <= NumPages r)%Z ->
  (forall i, (0 <= i < NumPages r)%Z ->
     loadPage Parse loadFont r i <> Panicked) ->
  exists doc, LoadPDF Parse loadFont (Ok r) = Ok doc.
Proof.
  intros Hinfo Hnum Hsafe. unfold LoadPDF, loadDocument.
  destruct (pageLoop_total r (seqZ 0 (NumPages r)) []) as [pages ->].
  { intros i Hi. apply Hsafe. apply elem_of_seqZ in Hi. lia. }
  apply Z.ltb_ge in Hnum. rewrite Hnum.
  destruct (GetInfo r); [eauto | eauto | congruence].
Qed.

(** A page is passed over for one of two reasons only: it could not be
    retrieved, or its text could not be extracted ([NewExtractor] has no
    error to return). *)
Lemma loadPage_err r i :
  loadPage Parse loadFont r i = Err <->
  GetPage r i = Err
  \/ exists pdfPage extractor,
       GetPage r i = Ok pdfPage
       /\ NewExtractor (reader_Resolve r) loadFont pdfPage = Done extractor
       /\ ExtractText (reader_Resolve r) Parse extractor = Err.
Proof.
  unfold loadPage. split.
  - intros Hload.
    destruct (GetPage r i) as [pdfPage| |]; [|left; reflexivity|discriminate].
    destruct (NewExtractor (reader_Resolve r) loadFont pdfPage)
      as [extractor|] eqn:Hnew; [|discriminate].
    destruct (ExtractText (reader_Resolve r) Parse extractor) eqn:Hext;
      [|right; eauto|discriminate].
    destruct (mediaBoxSize pdfPage). discriminate.
  - intros [-> | (pdfPage & extractor & -> & -> & ->)]; reflexivity.
Qed.

(** When nothing panics the loader returns a document; in every document
    it returns, the number of page records is at most the number of pages,
    their page numbers are a subsequence of 1..num_pages and strictly
    increasing; a page that fails with an error has no record, and every
    page that loads has its record. *)
Theorem LoadPDF_page_numbers r :
  (GetInfo r <> Panicked ->
   (0 <= NumPages r)%Z ->
   (forall i, (0 <= i < NumPages r)%Z ->
      loadPage Parse loadFont r i <> Panicked) ->
   exists doc, LoadPDF Parse loadFont (Ok r) = Ok doc)
  /\ (forall doc, LoadPDF Parse loadFont (Ok r) = Ok doc ->
      (length (Pages doc) <= Z.to_nat (NumPages r))%nat
      /\ (PageNumber <$> Pages doc) `sublist_of` seqZ 1 (NumPages r)
      /\ StronglySorted Z.lt (PageNumber <$> Pages doc)
      /\ (forall i, (0 <= i < NumPages r)%Z ->
            (loadPage Parse loadFont r i = Err ->
             (i + 1)%Z ∉ (PageNumber <$> Pages doc))
            /\ (forall pg, loadPage Parse loadFont r i = Ok pg ->
                  pg ∈ Pages doc))).
Proof.
  split.
  - apply LoadPDF_returns.
  - intros doc Hdoc. rewrite (LoadPDF_pages r doc Hdoc).
    assert (Hsub : (PageNumber <$> omap (emittedPage Parse loadFont r)
                                     (seqZ 0 (NumPages r)))
                     `sublist_of` seqZ 1 (NumPages r)).
    { pose proof (emitted_numbers_sublist r (seqZ 0 (NumPages r))) as H.
      rewrite fmap_add_seqZ in H. exact H. }
    split; [|split; [exact Hsub|split]].
    + apply sublist_length in Hsub.
      rewrite length_fmap, length_seqZ in Hsub. exact Hsub.
    + eapply StronglySorted_sublist; [exact Hsub|].
      apply StronglySorted_seqZ.
    + intros i Hi. split.
      * intros Herr Hin. apply list_elem_of_fmap in Hin as (pg & Hnum & Hin).
        apply list_elem_of_omap in Hin as (j & _ & Hj).
        unfold emittedPage in Hj.
        destruct (loadPage Parse loadFont r j) as [pg'| |] eqn:Hload;
          try discriminate.
        inversion Hj; subst pg'.
        destruct (loadPage_record r j pg Hload) as [Hnum' _].
        assert (j = i) by lia. subst j. congruence.
      * intros pg Hload. apply list_elem_of_omap. exists i. split.
        -- apply elem_of_seqZ. lia.
        -- unfold emittedPage. rewrite Hload. reflexivity.
Qed.

(** A panic in one page ends the loop, whatever the other pages hold. *)
Lemma pageLoop_panics r indices : forall pages i,
  i ∈ indices ->
  loadPage Parse loadFont r i = Panicked ->
  pageLoop Parse loadFont r indices pages = Panicked.
Proof.
  induction indices as [|j rest IH]; intros pages i Hin Hpanic.
  - apply elem_of_nil in Hin. contradiction.
  - cbn [pageLoop]. apply elem_of_cons in Hin as [<- | Hin].
    + rewrite Hpanic. reflexivity.
    + destruct (loadPage Parse loadFont r j); try reflexivity;
        eapply IH; eassumption.
Qed.

(** C7: a page whose extractor cannot be constructed is not skipped.  When
    one page of the document has, in the [/Font] dictionary of its
    [/Resources], an entry that does not resolve to a dictionary, the
    construction of its extractor panics, and the loader returns no
    document at all: no record of any page, whatever the reader gives for
    the other pages and whatever the parser and the font loader do. *)
Theorem LoadPDF_font_panic_loses_document r i pdfPage res fontDict name ref :
  (0 <= i < NumPages r)%Z ->
  GetPage r i = Ok pdfPage ->
  reader_Resolve r (pdfPage !! "/Resources") = Some (DictionaryObject res) ->
  reader_Resolve r (res !! "/Font") = Some (DictionaryObject fontDict) ->
  fontDict !! name = Some ref ->
  asDictionary (reader_Resolve r (Some ref)) = None ->
  NewExtractor (reader_Resolve r) loadFont pdfPage = Panic
  /\ LoadPDF Parse loadFont (Ok r) = Panicked.
Proof.
  intros Hi Hpage Hres Hfont Hentry Hbad.
  assert (Hnew : NewExtractor (reader_Resolve r) loadFont pdfPage = Panic).
  { unfold NewExtractor. rewrite Hres, Hfont.
    rewrite (loadFontEntries_panics (reader_Resolve r) loadFont
               (map_to_list fontDict) ∅ name ref);
      [reflexivity | | exact Hbad].
    apply elem_of_map_to_list. exact Hentry. }
  split; [exact Hnew|].
  unfold LoadPDF, loadDocument.
  assert (Hnum : (NumPages r <? 0)%Z = false) by (apply Z.ltb_ge; lia).
  rewrite Hnum.
  rewrite (pageLoop_panics r (seqZ 0 (NumPages r)) [] i).
  - destruct (GetInfo r) as [[info|]| |]; reflexivity.
  - apply elem_of_seqZ. lia.
  - unfold loadPage. rewrite Hpage, Hnew. reflexivity.
Qed.

(** C8: in every page record the character count is the length of the
    content string, counted in bytes. *)
Theorem LoadPDF_char_count r doc :
  LoadPDF Parse loadFont (Ok r) = Ok doc ->
  Forall (fun pg => CharCount pg = Z.of_nat (String.length (Content pg)))
         (Pages doc).
Proof.
  intros Hdoc. rewrite (LoadPDF_pages r doc Hdoc).
  apply Forall_forall. intros pg Hin.
  apply list_elem_of_omap in Hin as (i & _ & Hi).
  unfold emittedPage in Hi.
  destruct (loadPage Parse loadFont r i) as [pg'| |] eqn:Hload;
    try discriminate.
  inversion Hi; subst pg'.
  apply (loadPage_record r i pg Hload).
Qed.
End LoaderProperties.

Lemma sampleReader_safe i :
  (0 <= i < NumPages sampleReader)%Z ->
  loadPage sampleParse sampleLoadFont sampleReader i <> Panicked.
Proof.
  intros Hi. simpl in Hi.
  assert (i = 0 \/ i = 1 \/ i = 2)%Z as [-> | [-> | ->]] by lia;
    vm_compute; discriminate.
Qed.

Lemma LoadPDF_page_numbers_witness :
  exists doc,
    LoadPDF sampleParse sampleLoadFont (Ok sampleReader) = Ok doc
    /\ (length (Pages doc) <= 3)%nat
    /\ StronglySorted Z.lt (PageNumber <$> Pages doc)
    /\ (2%Z ∉ (PageNumber <$> Pages doc)).
Proof.
  destruct (LoadPDF_page_numbers sampleParse sampleLoadFont sampleReader)
    as [Hreturns Hpages].
  destruct (Hreturns ltac:(discriminate) ltac:(simpl; lia) sampleReader_safe)
    as [doc Hdoc].
  destruct (Hpages doc Hdoc) as (Hlen & _ & Hsorted & Heach).
  exists doc. repeat split; try assumption.
  apply (Heach 1%Z); [simpl; lia | reflexivity].
Defined.

(** The second page of [badFontReader] loads by itself, yet the document
    has no record of it: the first page ends the run. *)
Lemma LoadPDF_font_panic_loses_document_witness :
  loadPage sampleParse sampleLoadFont badFontReader 1
  = Ok (mkPage 2 "Hi" 2 0 0)
  /\ NewExtractor sampleResolve sampleLoadFont badFontPage = Panic
  /\ LoadPDF sampleParse sampleLoadFont (Ok badFontReader) = Panicked.
Proof.
  split; [vm_compute; reflexivity|].
  apply (LoadPDF_font_panic_loses_document sampleParse sampleLoadFont
           badFontReader 0 badFontPage
           (<["/Font" := DictionaryObject (<["/F1" := NullObject]> ∅)]> ∅)
           (<["/F1" := NullObject]> ∅) "/F1" NullObject).
  - simpl. lia.
  - reflexivity.
  - vm_compute. reflexivity.
  - vm_compute. reflexivity.
  - vm_compute. reflexivity.
  - reflexivity.
Defined.

Lemma LoadPDF_char_count_witness :
  LoadPDF sampleParse sampleLoadFont (Ok sampleReader)
  = Ok (mkDocument (mkMetadata "" "" "" "" false)
          [mkPage 1 "Hi" 2 0 0; mkPage 3 "Hi" 2 0 0])
  /\ Forall (fun pg => CharCount pg = Z.of_nat (String.length (Content pg)))
       [mkPage 1 "Hi" 2 0 0; mkPage 3 "Hi" 2 0 0].
Proof.
  assert (Hdoc : LoadPDF sampleParse sampleLoadFont (Ok sampleReader)
                 = Ok (mkDocument (mkMetadata "" "" "" "" false)
                         [mkPage 1 "Hi" 2 0 0; mkPage 3 "Hi" 2 0 0]))
    by (vm_compute; reflexivity).
  split; [exact Hdoc|].
  exact (LoadPDF_char_count sampleParse sampleLoadFont sampleReader _ Hdoc).
Defined.

(** * Further properties *)

(** ** Operators and their names *)

Lemma eqb_false_of_neq (s1 s2 : string) : s1 <> s2 -> String.eqb s1 s2 = false.
Proof. intros Hne. apply String.eqb_neq. exact Hne. Qed.

(** Each case of the switch is reached by its own name only. *)
Lemma opcodeOf_known operator :
  opcodeOf operator <> OpOther -> operator ∈ knownOperators.
Proof.
  unfold opcodeOf, knownOperators. intros Hcase.
  repeat match type of Hcase with
         | context [String.eqb operator ?name] =>
             let E := fresh "E" in
             destruct (String.eqb operator name) eqn:E;
               [apply String.eqb_eq in E; subst operator; repeat constructor |]
         end.
  congruence.
Qed.

Lemma opcodeOf_show operator :
  opcodeOf operator = Op_Tj \/ opcodeOf operator = Op_TJ
  \/ opcodeOf operator = Op_quote \/ opcodeOf operator = Op_dquote ->
  operator ∈ showOperators.
Proof.
  unfold opcodeOf, showOperators. intros Hcase.
  repeat match type of Hcase with
         | context [String.eqb operator ?name] =>
             let E := fresh "E" in
             destruct (String.eqb operator name) eqn:E;
               [apply String.eqb_eq in E; subst operator;
                first [exfalso; destruct Hcase as [H | [H | [H | H]]];
                         discriminate H
                      | repeat constructor] |]
         end.
  destruct Hcase as [H | [H | [H | H]]]; discriminate H.
Qed.

(** X1: An operator the switch has no case for does nothing: the extractor is
    handed back as it was, whatever the operands. *)
Theorem processOp_unknown_operator e op :
  Operator op ∉ knownOperators -> processOp e op = Done e.
Proof.
  intros Hunknown. unfold processOp.
  destruct (opcodeOf (Operator op)) eqn:Hcase;
    try (exfalso; apply Hunknown, opcodeOf_known; congruence).
  reflexivity.
Qed.

Lemma processOp_unknown_operator_witness :
  processOp sampleExtractor (mkOperation "re" [num 1; num 2]) = Done sampleExtractor.
Proof.
  apply processOp_unknown_operator. vm_compute.
  intros Hin. repeat (apply elem_of_cons in Hin as [Hin | Hin];
                        [discriminate Hin|]).
  apply elem_of_nil in Hin. exact Hin.
Defined.

(** ** What the interpreter never touches *)

Lemma extends_refl e : extends e e.
Proof.
  repeat split. exists "". symmetry. apply string_app_empty_r.
Qed.

Lemma extends_trans e1 e2 e3 : extends e1 e2 -> extends e2 e3 -> extends e1 e3.
Proof.
  intros (Hp1 & Hf1 & a1 & Hb1) (Hp2 & Hf2 & a2 & Hb2).
  split; [congruence|]. split; [congruence|].
  exists (a2 ++ a1). rewrite Hb1, Hb2. apply string_app_assoc.
Qed.

Lemma set_textState_extends t e : extends (set_textState t e) e.
Proof. apply (extends_refl e). Qed.

Lemma set_gState_extends g e : extends (set_gState g e) e.
Proof. apply (extends_refl e). Qed.

Lemma set_gStack_extends s e : extends (set_gStack s e) e.
Proof. apply (extends_refl e). Qed.

Lemma handleText_extends e obj : extends (handleText e obj) e.
Proof.
  unfold handleText. destruct (rawBytesOf obj) as [rawBytes|].
  - split; [reflexivity|]. split; [reflexivity|]. simpl.
    eexists. apply string_app_assoc.
  - apply extends_refl.
Qed.

Lemma opTj_extends e operands : extends (opTj e operands) e.
Proof.
  destruct operands; simpl; [apply extends_refl | apply handleText_extends].
Qed.

Lemma opTJ_elem_extends e obj : extends (opTJ_elem e obj) e.
Proof.
  destruct obj; simpl; try apply handleText_extends.
  apply set_textState_extends.
Qed.

Lemma opTJ_fold_extends arr : forall e, extends (fold_left opTJ_elem arr e) e.
Proof.
  induction arr as [|obj arr IH]; intros e; simpl.
  - apply extends_refl.
  - eapply extends_trans; [apply IH | apply opTJ_elem_extends].
Qed.

Create HintDb extends.
#[local] Hint Resolve extends_refl set_textState_extends set_gState_extends
  set_gStack_extends handleText_extends opTj_extends opTJ_fold_extends
  : extends.

Lemma processOp_extends e op e' : processOp e op = Done e' -> extends e' e.
Proof.
  unfold processOp. intros Hrun.
  destruct (opcodeOf (Operator op));
    repeat match type of Hrun with
           | context [match ?x with _ => _ end] => destruct x
           end;
    try discriminate; inversion Hrun; subst; clear Hrun;
    eauto with extends.
  - eapply extends_trans; [apply set_gStack_extends | apply set_gState_extends].
  - eapply extends_trans; [apply opTj_extends | apply set_textState_extends].
  - eapply extends_trans; [apply opTj_extends |].
    eapply extends_trans; apply set_textState_extends.
Qed.

(** X2: Running operations only ever adds text at the end of the buffer, and
    leaves the page and the font table alone: nothing already extracted is
    changed or removed. *)
Theorem processOps_append_only ops : forall e e',
  processOps e ops = Done e' ->
  page e' = page e /\ fonts e' = fonts e
  /\ exists added, buffer e' = buffer e ++ added.
Proof.
  induction ops as [|op ops IH]; intros e e' Hrun; simpl in Hrun.
  - inversion Hrun; subst. apply (extends_refl e').
  - destruct (processOp e op) as [e1|] eqn:Hstep; [|discriminate].
    apply (extends_trans e' e1 e).
    + apply IH, Hrun.
    + apply (processOp_extends e op), Hstep.
Qed.

Lemma processOps_append_only_witness :
  exists e',
    processOps sampleExtractor
      [mkOperation "Tj" [StringObject "AB"]; mkOperation "q" []] = Done e'
    /\ exists added, buffer e' = "Hello" ++ added.
Proof.
  eexists. split; [reflexivity|].
  apply (processOps_append_only
           [mkOperation "Tj" [StringObject "AB"]; mkOperation "q" []]
           sampleExtractor _ eq_refl).
Defined.

(** X3: Only the four show operators write: any other operator leaves the
    buffer and the recorded end position of the last run as they are. *)
Theorem processOp_only_shows_write e op e' :
  Operator op ∉ showOperators ->
  processOp e op = Done e' ->
  buffer e' = buffer e /\ lastX e' = lastX e /\ lastY e' = lastY e.
Proof.
  intros Hnot Hrun.
  assert (Hcase : ~ (opcodeOf (Operator op) = Op_Tj
                     \/ opcodeOf (Operator op) = Op_TJ
                     \/ opcodeOf (Operator op) = Op_quote
                     \/ opcodeOf (Operator op) = Op_dquote))
    by (intros H; apply Hnot, opcodeOf_show, H).
  unfold processOp in Hrun.
  destruct (opcodeOf (Operator op));
    try (exfalso; apply Hcase; auto; fail);
    repeat match type of Hrun with
           | context [match ?x with _ => _ end] => destruct x
           end;
    try discriminate; inversion Hrun; subst; auto.
Qed.

Lemma processOp_only_shows_write_witness :
  exists e',
    processOp sampleExtractor (mkOperation "Td" [num 10; num 20]) = Done e'
    /\ buffer e' = "Hello" /\ lastX e' = 70%float /\ lastY e' = 700%float.
Proof.
  eexists. split; [reflexivity|].
  apply (processOp_only_shows_write sampleExtractor
           (mkOperation "Td" [num 10; num 20]) _); [|reflexivity].
  vm_compute. intros Hin.
  repeat (apply elem_of_cons in Hin as [Hin | Hin]; [discriminate Hin|]).
  apply elem_of_nil in Hin. exact Hin.
Defined.

(** X4: Showing a string changes the buffer, the end position and the last two
    entries of TM, and nothing else: font, size, spacings, scale, leading,
    rise, the line matrix, the first four entries of TM, the CTM, the
    graphics stack, the font table and the page all stay. *)
Theorem handleText_frame e obj :
  let t := textState e in
  let t' := textState (handleText e obj) in
  ts_Font t' = ts_Font t /\ FontSize t' = FontSize t
  /\ CharSpacing t' = CharSpacing t /\ WordSpacing t' = WordSpacing t
  /\ Scale t' = Scale t /\ Leading t' = Leading t /\ Rise t' = Rise t
  /\ TLM t' = TLM t
  /\ M0 (TM t') = M0 (TM t) /\ M1 (TM t') = M1 (TM t)
  /\ M2 (TM t') = M2 (TM t) /\ M3 (TM t') = M3 (TM t)
  /\ graphics_eq (handleText e obj) e
  /\ fonts (handleText e obj) = fonts e /\ page (handleText e obj) = page e.
Proof.
  unfold handleText. destruct (rawBytesOf obj); simpl;
    repeat split; reflexivity.
Qed.

(** ** How the operators compose *)

(** The quote operator is [T*] followed by [Tj] on the same operands. *)
Theorem processOp_quote_composes e operands :
  processOp e (mkOperation "'" operands)
  = processOps e [mkOperation "T*" []; mkOperation "Tj" operands].
Proof. reflexivity. Qed.

(** X5: The double quote with its three operands is [Tw], [Tc], [T*] and [Tj]
    in a row; with fewer than two operands it panics. *)
Theorem processOp_dquote_composes e :
  (forall aw ac rest,
     processOp e (mkOperation DQUOTE (aw :: ac :: rest))
     = processOps e [mkOperation "Tw" [aw]; mkOperation "Tc" [ac];
                     mkOperation "T*" []; mkOperation "Tj" rest])
  /\ processOp e (mkOperation DQUOTE []) = Panic
  /\ (forall aw, processOp e (mkOperation DQUOTE [aw]) = Panic).
Proof. repeat split. Qed.

(** X6: [TD tx ty] is [TL] with the leading [-ty] followed by [Td tx ty], and
    [T*] is [Td] by (0, -leading). *)
Theorem processOp_TD_composes e tx ty rest :
  processOp e (mkOperation "TD" (tx :: ty :: rest))
  = processOps e [mkOperation "TL" [num (- number ty)];
                  mkOperation "Td" [tx; ty]]
  /\ processOp e (mkOperation "T*" rest)
     = processOp e (mkOperation "Td"
                      [num 0; num (- Leading (textState e))]).
Proof. split; reflexivity. Qed.

Lemma TJ_strings_fold arr : forall e,
  Forall (fun obj => forall n, obj <> NumberObject n) arr ->
  Done (fold_left opTJ_elem arr e)
  = processOps e (map (fun obj => mkOperation "Tj" [obj]) arr).
Proof.
  induction arr as [|obj arr IH]; intros e Hall; simpl.
  - reflexivity.
  - apply Forall_cons in Hall as [Hobj Hall].
    change (processOp e (mkOperation "Tj" [obj])) with (Done (handleText e obj)).
    rewrite <- (IH (handleText e obj) Hall). f_equal. f_equal.
    destruct obj; try reflexivity. exfalso. eapply Hobj. reflexivity.
Qed.

(** X7: [TJ] on an array without numbers is one [Tj] per element, in order. *)
Theorem processOp_TJ_is_Tj_sequence e arr rest :
  Forall (fun obj => forall n, obj <> NumberObject n) arr ->
  processOp e (mkOperation "TJ" (ArrayObject arr :: rest))
  = processOps e (map (fun obj => mkOperation "Tj" [obj]) arr).
Proof.
  intros Hall. rewrite <- (TJ_strings_fold arr e Hall). reflexivity.
Qed.

Lemma processOp_TJ_is_Tj_sequence_witness :
  processOp sampleExtractor
    (mkOperation "TJ" [ArrayObject [StringObject "A"; StringObject "B"]])
  = processOps sampleExtractor
      [mkOperation "Tj" [StringObject "A"]; mkOperation "Tj" [StringObject "B"]].
Proof.
  apply (processOp_TJ_is_Tj_sequence sampleExtractor
           [StringObject "A"; StringObject "B"] []).
  repeat constructor; discriminate.
Defined.

(** X8: After each operator that positions a line ([BT], [Td], [TD], [T*], and
    [Tm] with six operands) the text matrix equals the line matrix. *)
Theorem line_operators_set_TM_to_TLM e op e' :
  Operator op ∈ ["BT"; "Td"; "TD"; "T*"]
  \/ (Operator op = "Tm" /\ length (Operands op) = 6%nat) ->
  processOp e op = Done e' ->
  TM (textState e') = TLM (textState e').
Proof.
  intros Hop Hrun. destruct op as [operator operands]. simpl in Hop.
  assert (Hname : operator = "BT" \/ operator = "Td" \/ operator = "TD"
                  \/ operator = "T*"
                  \/ (operator = "Tm" /\ length operands = 6%nat)).
  { destruct Hop as [Hin | Htm]; [|auto 6].
    repeat (apply elem_of_cons in Hin as [Hin | Hin]; [auto 6|]).
    apply elem_of_nil in Hin. contradiction. }
  destruct Hname as [-> | [-> | [-> | [-> | [-> Hlen]]]]];
    unfold processOp in Hrun; simpl in Hrun.
  - inversion Hrun; reflexivity.
  - destruct operands as [|o0 [|o1 rest]]; try discriminate.
    inversion Hrun; reflexivity.
  - destruct operands as [|o0 [|o1 rest]]; try discriminate.
    inversion Hrun; reflexivity.
  - inversion Hrun; reflexivity.
  - rewrite Hlen in Hrun. simpl in Hrun.
    destruct (argsToMatrix operands); [|discriminate].
    inversion Hrun; reflexivity.
Qed.

Lemma line_operators_set_TM_to_TLM_witness :
  exists e',
    processOp sampleExtractor (mkOperation "Td" [num 10; num 20]) = Done e'
    /\ TM (textState e') = TLM (textState e').
Proof.
  eexists. split; [reflexivity|].
  apply (line_operators_set_TM_to_TLM sampleExtractor
           (mkOperation "Td" [num 10; num 20]) _); [|reflexivity].
  left. simpl. repeat constructor.
Defined.

(** X9: [cm] and [Tm] take effect with exactly six operands; with any other
    count, more than six included, they are skipped. *)
Theorem matrix_operators_need_six e op :
  Operator op = "cm" \/ Operator op = "Tm" ->
  length (Operands op) <> 6%nat ->
  processOp e op = Done e.
Proof.
  intros Hop Hlen. apply Nat.eqb_neq in Hlen.
  unfold processOp. destruct Hop as [-> | ->]; simpl; rewrite Hlen; reflexivity.
Qed.

Lemma matrix_operators_need_six_witness :
  processOp sampleExtractor
    (mkOperation "cm" [num 1; num 0; num 0; num 1; num 5; num 5; num 9])
  = Done sampleExtractor.
Proof.
  apply matrix_operators_need_six; [left; reflexivity | simpl; lia].
Defined.

(** ** Decoding through the CMap *)

(** X10: A one-byte code and the two-byte code made of a zero byte and that
    byte are looked up under the same key: a map entry for the code [b]
    decodes the single byte [b] and the pair [00 b] alike. *)
Theorem decodeLoop_zero_prefixed_code m b val :
  m !! Sprintf04X (byteInt b) = Some val ->
  decodeLoop m [b] "" = val /\ decodeLoop m [x00; b]%byte "" = val.
Proof.
  intros Hhit. split.
  - simpl. rewrite Hhit. reflexivity.
  - cbn [decodeLoop].
    change (byteInt x00) with 0%Z. rewrite Z.shiftl_0_l, Z.lor_0_l, Hhit.
    reflexivity.
Qed.

Lemma decodeLoop_zero_prefixed_code_witness :
  decodeLoop (<["0041" := "B"]> ∅) ["A"%byte] "" = "B"
  /\ decodeLoop (<["0041" := "B"]> ∅) [x00; "A"]%byte "" = "B".
Proof.
  apply (decodeLoop_zero_prefixed_code (<["0041" := "B"]> ∅) "A"%byte "B").
  reflexivity.
Defined.

(** X11: With a font whose CMap table is not empty, so that the loop
    runs, and bytes for which none of the keys the loop forms is in the
    table (at each index the two-byte key with the next byte and the
    one-byte key), every byte takes the fallback: the text is the bytes
    read as Latin-1 and written as UTF-8, one byte at a time and in
    order. *)
Theorem decodeText_no_entry t f c rawBytes :
  ts_Font t = Some f ->
  font_CMap f = Some c ->
  Map c <> ∅ ->
  Forall (fun key => Map c !! key = None) (loopKeys rawBytes) ->
  decodeText t rawBytes
  = foldr (fun b text => string_of_rune b ++ text) "" rawBytes.
Proof.
  intros Hfont Hcmap Hnonempty Hmiss.
  unfold decodeText, activeCMap. rewrite Hfont, Hcmap.
  destruct (size (Map c)) as [|k] eqn:Hsize.
  { apply map_size_empty_iff in Hsize. contradiction. }
  cbn [Nat.ltb Nat.leb].
  induction rawBytes as [|b rest IH]; [reflexivity|].
  cbn [loopKeys] in Hmiss. apply Forall_app in Hmiss as [Hmiss2 Hmiss1].
  apply Forall_cons in Hmiss1 as [Hmiss1 Hrest].
  rewrite (decodeLoop_miss (Map c) b rest "").
  - rewrite decodeLoop_appends, (IH Hrest). reflexivity.
  - destruct rest as [|b' rest']; [exact I|].
    apply Forall_cons in Hmiss2 as [Hmiss2 _]. exact Hmiss2.
  - exact Hmiss1.
Qed.

Lemma decodeText_no_entry_witness :
  decodeText (set_Font (Some unmatchedCMapFont) NewTextState) [xe9; "A"]%byte
  = String "195"%char (String "169"%char "A").
Proof.
  rewrite (decodeText_no_entry (set_Font (Some unmatchedCMapFont) NewTextState)
             unmatchedCMapFont (mkCMap (<["FFFF" := "z"]> ∅))
             [xe9; "A"]%byte).
  - reflexivity.
  - reflexivity.
  - reflexivity.
  - vm_compute. discriminate.
  - repeat constructor.
Defined.

(** ** loadFont *)

Lemma wrapInt_id z : (- 2 ^ 63 <= z < 2 ^ 63)%Z -> wrapInt z = z.
Proof.
  intros Hrange. unfold wrapInt.
  rewrite Z.mod_small by lia. lia.
Qed.

(** A code that no numeric element of the array stands for keeps the entry
    it had. *)
Lemma loadWidths_other widths : forall first i table k,
  (- 2 ^ 63 <= first + i)%Z ->
  (first + i + Z.of_nat (length widths) <= 2 ^ 63)%Z ->
  (forall (j : nat) w, widths !! j = Some (NumberObject w) ->
     k <> (first + i + Z.of_nat j)%Z) ->
  loadWidths first i widths table !! k = table !! k.
Proof.
  induction widths as [|wObj rest IH]; intros first i table k Hlo Hhi Hk.
  - reflexivity.
  - cbn [loadWidths]. simpl length in Hhi. rewrite IH; try lia.
    + destruct wObj; try reflexivity.
      rewrite wrapInt_id by lia. apply lookup_insert_ne.
      specialize (Hk 0%nat n eq_refl). lia.
    + intros j w Hj. specialize (Hk (S j) w Hj). lia.
Qed.

(** The numeric element at position [j] is stored at code [first+i+j]. *)
Lemma loadWidths_stored widths : forall first i table (j : nat) w,
  (- 2 ^ 63 <= first + i)%Z ->
  (first + i + Z.of_nat (length widths) <= 2 ^ 63)%Z ->
  widths !! j = Some (NumberObject w) ->
  loadWidths first i widths table !! (first + i + Z.of_nat j)%Z = Some w.
Proof.
  induction widths as [|wObj rest IH]; intros first i table j w Hlo Hhi Hj.
  - discriminate Hj.
  - cbn [loadWidths]. simpl length in Hhi. destruct j as [|j].
    + inversion Hj; subst wObj. rewrite loadWidths_other; try lia.
      rewrite wrapInt_id by lia.
      replace (first + i + Z.of_nat 0)%Z with (first + i)%Z by lia.
      apply lookup_insert_eq.
    + replace (first + i + Z.of_nat (S j))%Z
        with (first + (i + 1) + Z.of_nat j)%Z by lia.
      apply IH; try lia. exact Hj.
Qed.

Lemma int_of_float64_range x : (- 2 ^ 63 <= int_of_float64 x < 2 ^ 63)%Z.
Proof.
  unfold int_of_float64. destruct (Prim2SF x) as [s|s| |s m e]; try lia.
  match goal with
  | |- context [if ?c then _ else _] => destruct c eqn:Hc
  end; [|lia].
  apply andb_true_iff in Hc as [Hlo Hhi].
  apply Z.leb_le in Hlo. apply Z.ltb_lt in Hhi. lia.
Qed.

Section FontLoaderProperties.
Variable Resolve : option Object -> option Object.
Variable ParseCMap : list byte -> option CMap.
Variable NewCMap : CMap.

(** X12: For a simple font the widths table holds exactly the numeric elements
    of [/Widths], the element at position [j] under the code
    [int(FirstChar) + j]; elements that are not numbers (indirect
    references included) leave no entry.  The font is not marked CID. *)
Theorem loadFont_widths obj firstObj widths :
  Resolve (obj !! "/FirstChar") = Some (NumberObject firstObj) ->
  Resolve (obj !! "/Widths") = Some (ArrayObject widths) ->
  (int_of_float64 firstObj + Z.of_nat (length widths) <= 2 ^ 63)%Z ->
  let f := loadFont Resolve ParseCMap NewCMap obj in
  IsCID f = false
  /\ forall k w,
       Widths f !! k = Some w <->
       exists j : nat, k = (int_of_float64 firstObj + Z.of_nat j)%Z
                       /\ widths !! j = Some (NumberObject w).
Proof.
  intros Hfirst Hwidths Hfit f. subst f. unfold loadFont.
  rewrite Hfirst, Hwidths. cbn [IsCID Widths]. split; [reflexivity|].
  pose proof (int_of_float64_range firstObj) as Hrange.
  set (first := int_of_float64 firstObj) in *.
  intros k w. split.
  - intros Hk.
    destruct (decide (first <= k)%Z) as [Hle | Hlt].
    + destruct (widths !! Z.to_nat (k - first)) as [[]|] eqn:Hj;
        try (rewrite loadWidths_other in Hk;
             [discriminate Hk | lia | lia |];
             intros j w' Hj' ->;
             replace (Z.to_nat (first + 0 + Z.of_nat j - first)) with j in Hj
               by lia;
             congruence).
      exists (Z.to_nat (k - first)). split; [lia|].
      rewrite Hj. f_equal. f_equal.
      pose proof (loadWidths_stored widths first 0 ∅ _ _
                    ltac:(lia) ltac:(lia) Hj) as Hstored.
      replace (first + 0 + Z.of_nat (Z.to_nat (k - first)))%Z with k
        in Hstored by lia.
      congruence.
    + rewrite loadWidths_other in Hk; [discriminate Hk | lia | lia |].
      intros j w' _. lia.
  - intros (j & -> & Hj).
    pose proof (loadWidths_stored widths first 0 ∅ j w
                  ltac:(lia) ltac:(lia) Hj) as Hstored.
    replace (first + 0 + Z.of_nat j)%Z with (first + Z.of_nat j)%Z
      in Hstored by lia.
    exact Hstored.
Qed.

(** In every loaded font the space width is the table's width at code 32
    when there is one and 250 otherwise, and the missing width is 0. *)
Theorem loadFont_space_width obj :
  let f := loadFont Resolve ParseCMap NewCMap obj in
  SpaceWidth f = default 250%float (Widths f !! 32%Z)
  /\ MissingW f = 0%float.
Proof.
  unfold loadFont.
  destruct (Resolve (obj !! "/FirstChar")) as [[]|];
    cbn [SpaceWidth Widths MissingW]; split; try reflexivity;
    match goal with
    | |- context [?m !! 32%Z] => destruct (m !! 32%Z); reflexivity
    end.
Qed.

(** X13: Without a numeric [/FirstChar] the font is marked CID and has no
    widths, so every string shown in it advances by the half-em rule. *)
Theorem loadFont_without_FirstChar obj :
  (forall n, Resolve (obj !! "/FirstChar") <> Some (NumberObject n)) ->
  let f := loadFont Resolve ParseCMap NewCMap obj in
  IsCID f = true /\ Widths f = ∅ /\ SpaceWidth f = 250%float
  /\ forall t rawBytes decoded,
       ts_Font t = Some f ->
       totalWidthOf t rawBytes decoded
       = (float64_of_len (String.length decoded) * FontSize t * 0.5
          * (Scale t / 100))%float.
Proof.
  intros Hnone f.
  assert (Hf : IsCID f = true /\ Widths f = ∅ /\ SpaceWidth f = 250%float).
  { subst f. unfold loadFont.
    destruct (Resolve (obj !! "/FirstChar")) as [[]|];
      try (repeat split; reflexivity).
    exfalso. eapply Hnone. reflexivity. }
  destruct Hf as (Hcid & Hw & Hsp). repeat split; try assumption.
  intros t rawBytes decoded Ht. unfold totalWidthOf.
  rewrite (activeWidths_none t); [reflexivity|].
  right. exists f. split; assumption.
Qed.

(** X14: A [/ToUnicode] stream that does not parse leaves the font without a
    CMap, and strings shown in it are copied byte for byte. *)
Theorem loadFont_unparsed_ToUnicode obj dict data :
  Resolve (obj !! "/ToUnicode") = Some (StreamObject dict data) ->
  ParseCMap data = None ->
  let f := loadFont Resolve ParseCMap NewCMap obj in
  font_CMap f = None
  /\ forall t rawBytes,
       ts_Font t = Some f -> decodeText t rawBytes = string_of_bytes rawBytes.
Proof.
  intros Hstream Hparse f.
  assert (Hcmap : font_CMap f = None).
  { subst f. unfold loadFont. rewrite Hstream, Hparse.
    destruct (Resolve (obj !! "/FirstChar")) as [[]|]; reflexivity. }
  split; [exact Hcmap|].
  intros t rawBytes Ht. unfold decodeText, activeCMap.
  rewrite Ht, Hcmap. reflexivity.
Qed.
End FontLoaderProperties.

Lemma loadFont_widths_witness :
  Widths (loadFont sampleResolve sampleParseCMap (mkCMap ∅) sampleFontDict)
    !! 34%Z = Some 500%float.
Proof.
  destruct (loadFont_widths sampleResolve sampleParseCMap (mkCMap ∅)
              sampleFontDict 32%float [num 278; NullObject; num 500]
              eq_refl eq_refl)
    as [_ Hwidths].
  - vm_compute. discriminate.
  - apply Hwidths. exists 2%nat. split; reflexivity.
Defined.

Lemma loadFont_without_FirstChar_witness :
  IsCID (loadFont sampleResolve sampleParseCMap (mkCMap ∅) ∅) = true
  /\ Widths (loadFont sampleResolve sampleParseCMap (mkCMap ∅) ∅) = ∅.
Proof.
  destruct (loadFont_without_FirstChar sampleResolve sampleParseCMap
              (mkCMap ∅) ∅)
    as (Hcid & Hwidths & _).
  - intros n Hn. discriminate Hn.
  - split; assumption.
Defined.

Lemma loadFont_unparsed_ToUnicode_witness :
  font_CMap (loadFont sampleResolve sampleParseCMap (mkCMap ∅)
               (<["/ToUnicode" := StreamObject ∅ []]> ∅)) = None.
Proof.
  apply (loadFont_unparsed_ToUnicode sampleResolve sampleParseCMap (mkCMap ∅)
           (<["/ToUnicode" := StreamObject ∅ []]> ∅) ∅ []).
  - vm_compute. reflexivity.
  - reflexivity.
Defined.

(** ** NewExtractor: the font table *)

Section NewExtractorProperties.
Variable Resolve : option Object -> option Object.
Variable loadFont : gmap string Object -> Font.

Lemma loadFontEntries_table entries : forall table,
  NoDup entries.*1 ->
  (forall name ref, (name, ref) ∈ entries ->
     is_Some (asDictionary (Resolve (Some ref)))) ->
  exists table',
    loadFontEntries Resolve loadFont entries table = Done table'
    /\ forall name,
         table' !! name
         = match (list_to_map entries : gmap string Object) !! name with
           | Some ref => loadFont <$> asDictionary (Resolve (Some ref))
           | None => table !! name
           end.
Proof.
  induction entries as [|[n r] rest IH]; intros table Hnodup Hdicts.
  - exists table. split; [reflexivity|]. intros name.
    cbn [list_to_map foldr]. rewrite lookup_empty. reflexivity.
  - cbn [fmap list_fmap fst] in Hnodup.
    apply NoDup_cons in Hnodup as [Hfresh Hnodup].
    destruct (Hdicts n r ltac:(left)) as [d Hd].
    cbn [loadFontEntries].
    destruct (Resolve (Some r)) as [[]|] eqn:Hr; try discriminate Hd.
    cbn [asDictionary] in Hd. inversion Hd; subst d.
    destruct (IH (<[n := loadFont d0]> table) Hnodup) as (table' & Hrun & Hlook).
    { intros name ref Hin. apply (Hdicts name ref). right. exact Hin. }
    exists table'. split; [exact Hrun|].
    intros name. rewrite Hlook. cbn [list_to_map foldr].
    destruct (decide (name = n)) as [-> | Hne].
    + rewrite lookup_insert_eq.
      assert (Hnone : (list_to_map rest : gmap string Object) !! n = None).
      { apply not_elem_of_list_to_map_1. exact Hfresh. }
      unfold uncurry. cbn [fst snd].
      rewrite Hnone, lookup_insert_eq, Hr. reflexivity.
    + unfold uncurry. cbn [fst snd].
      rewrite !lookup_insert_ne by congruence. reflexivity.
Qed.

(** X15: With [/Resources] and its [/Font] both dictionaries: if every font
    reference resolves to a dictionary, the extractor is built and its font
    table has, under each name of [/Font] and no other, the font loaded
    from the dictionary that name resolves to; if one reference resolves
    to anything else, building the extractor panics. *)
Theorem NewExtractor_font_table pg res fontDict :
  Resolve (pg !! "/Resources") = Some (DictionaryObject res) ->
  Resolve (res !! "/Font") = Some (DictionaryObject fontDict) ->
  ((forall name ref, fontDict !! name = Some ref ->
      is_Some (asDictionary (Resolve (Some ref)))) ->
   exists e,
     NewExtractor Resolve loadFont pg = Done e
     /\ forall name,
          fonts e !! name
          = fontDict !! name
            ≫= fun ref => loadFont <$> asDictionary (Resolve (Some ref)))
  /\ (forall name ref,
        fontDict !! name = Some ref ->
        asDictionary (Resolve (Some ref)) = None ->
        NewExtractor Resolve loadFont pg = Panic).
Proof.
  intros Hres Hfont. unfold NewExtractor. rewrite Hres, Hfont. split.
  - intros Hdicts.
    destruct (loadFontEntries_table (map_to_list fontDict) ∅)
      as (table & Hrun & Hlook).
    + apply NoDup_fst_map_to_list.
    + intros name ref Hin. apply (Hdicts name ref).
      apply elem_of_map_to_list. exact Hin.
    + rewrite Hrun. eexists. split; [reflexivity|].
      intros name. cbn [fonts]. rewrite Hlook, list_to_map_to_list.
      destruct (fontDict !! name); [reflexivity | apply lookup_empty].
  - intros name ref Hin Hbad.
    rewrite (loadFontEntries_panics Resolve loadFont (map_to_list fontDict)
               ∅ name ref);
      [reflexivity | | exact Hbad].
    apply elem_of_map_to_list. exact Hin.
Qed.

(** X16: A page without a [/Resources] dictionary, or whose resources have no
    [/Font] dictionary, gets an extractor with an empty font table; its
    construction does not panic. *)
Theorem NewExtractor_without_fonts pg :
  asDictionary (Resolve (pg !! "/Resources")) = None
  \/ (exists res, Resolve (pg !! "/Resources") = Some (DictionaryObject res)
                  /\ asDictionary (Resolve (res !! "/Font")) = None) ->
  exists e, NewExtractor Resolve loadFont pg = Done e /\ fonts e = ∅.
Proof.
  unfold NewExtractor. intros [Hnone | (res & -> & Hnone)].
  - destruct (Resolve (pg !! "/Resources")) as [[]|];
      try discriminate Hnone; eauto.
  - destruct (Resolve (res !! "/Font")) as [[]|];
      try discriminate Hnone; eauto.
Qed.
End NewExtractorProperties.

Lemma NewExtractor_font_table_witness :
  exists e,
    NewExtractor sampleResolve
      (loadFont sampleResolve sampleParseCMap (mkCMap ∅)) samplePage = Done e
    /\ fonts e !! "/F1"
       = Some (loadFont sampleResolve sampleParseCMap (mkCMap ∅)
                 sampleFontDict)
    /\ fonts e !! "/F2" = None.
Proof.
  destruct (NewExtractor_font_table sampleResolve
              (loadFont sampleResolve sampleParseCMap (mkCMap ∅)) samplePage
              _ _ eq_refl eq_refl) as [Hbuilt _].
  destruct Hbuilt as (e & Hrun & Hlook).
  - intros name ref Hin.
    destruct (decide (name = "/F1")) as [-> | Hne].
    + rewrite lookup_insert_eq in Hin. inversion Hin. eexists. reflexivity.
    + rewrite lookup_insert_ne, lookup_empty in Hin by congruence.
      discriminate Hin.
  - exists e. split; [exact Hrun|]. rewrite !Hlook. split; reflexivity.
Defined.

Lemma NewExtractor_without_fonts_witness :
  exists e,
    NewExtractor sampleResolve sampleLoadFont (pageWith (num 1)) = Done e
    /\ fonts e = ∅.
Proof.
  apply (NewExtractor_without_fonts sampleResolve sampleLoadFont).
  left. reflexivity.
Defined.

(** ** The parsers over a token description of the lexer *)

Lemma groupOps_tokens tokens : forall operands,
  Forall (fun obj => isKeyword obj = false) operands ->
  exists trailing,
    Forall (fun obj => isKeyword obj = false) trailing
    /\ (operands ++ tokens)%list
       = (flat_map opTokens (groupOps tokens operands) ++ trailing)%list
    /\ Forall (fun op => Forall (fun obj => isKeyword obj = false) (Operands op))
              (groupOps tokens operands).
Proof.
  induction tokens as [|obj tokens IH]; intros operands Hops.
  - exists operands. split; [exact Hops|]. split; [|constructor].
    simpl. apply app_nil_r.
  - assert (Hdata : isKeyword obj = false ->
              exists trailing,
                Forall (fun o => isKeyword o = false) trailing
                /\ (operands ++ obj :: tokens)%list
                   = (flat_map opTokens (groupOps tokens (operands ++ [obj]))
                      ++ trailing)%list
                /\ Forall (fun op => Forall (fun o => isKeyword o = false)
                                            (Operands op))
                          (groupOps tokens (operands ++ [obj]))).
    { intros Hobj.
      destruct (IH (operands ++ [obj])%list) as (trailing & Ht & Heq & Hall).
      - apply Forall_app. split; [exact Hops | repeat constructor; exact Hobj].
      - exists trailing. split; [exact Ht|]. split; [|exact Hall].
        rewrite <- Heq, <- app_assoc. reflexivity. }
    destruct obj; try (apply Hdata; reflexivity).
    destruct (IH [] ltac:(constructor)) as (trailing & Ht & Heq & Hall).
    exists trailing. split; [exact Ht|]. cbn [groupOps flat_map]. split.
    + unfold opTokens at 1. cbn [Operands Operator].
      simpl in Heq. rewrite <- !app_assoc, <- Heq. reflexivity.
    + constructor; [exact Hops | exact Hall].
Qed.

Section TokenProperties.
Variable skipWhitespace : list byte -> list byte.
Variable ReadObject : list byte -> Result (Object * list byte).

Lemma parseLoop_groups input tokens final :
  lexes skipWhitespace ReadObject input tokens final ->
  skipWhitespace final = [] ->
  forall fuel operations operands,
    (length tokens < fuel)%nat ->
    parseLoop skipWhitespace ReadObject fuel input operations operands
    = Some (Ok (operations ++ groupOps tokens operands)%list).
Proof.
  induction 1 as [input | input b input' obj rest tokens final Hskip Hread Hlex IH];
    intros Hend fuel operations operands Hfuel.
  - destruct fuel as [|fuel]; [simpl in Hfuel; lia|].
    cbn [parseLoop]. rewrite Hend, app_nil_r. reflexivity.
  - destruct fuel as [|fuel]; [simpl in Hfuel; lia|].
    simpl in Hfuel. cbn [parseLoop]. rewrite Hskip, Hread.
    destruct obj;
      try (rewrite (IH Hend) by lia; reflexivity).
    rewrite (IH Hend) by lia. cbn [groupOps].
    rewrite <- app_assoc. reflexivity.
Qed.

(** X17: When the lexer reads the stream as the tokens [tokens] up to its end,
    [Parse] returns operations that, written back as operands followed by
    their keyword, are those tokens up to the last keyword; what is lost is
    only the operands after the last keyword.  No operand of an operation
    is a keyword. *)
Theorem Parse_keeps_tokens input tokens final fuel :
  lexes skipWhitespace ReadObject input tokens final ->
  skipWhitespace final = [] ->
  (length tokens < fuel)%nat ->
  exists ops trailing,
    Parse skipWhitespace ReadObject fuel input = Some (Ok ops)
    /\ tokens = (flat_map opTokens ops ++ trailing)%list
    /\ Forall (fun obj => isKeyword obj = false) trailing
    /\ Forall (fun op => Forall (fun obj => isKeyword obj = false)
                                (Operands op)) ops.
Proof.
  intros Hlex Hend Hfuel.
  destruct (groupOps_tokens tokens [] ltac:(constructor))
    as (trailing & Ht & Heq & Hall).
  exists (groupOps tokens []), trailing. split; [|auto].
  unfold Parse. rewrite (parseLoop_groups input tokens final Hlex Hend) by lia.
  reflexivity.
Qed.

(** X18: [Next] in the same terms: after operands that are not keywords and a
    keyword other than [BI], it returns the operation made of the operands
    buffered so far, those operands and the keyword, and leaves the buffer
    empty. *)
Theorem Next_returns_operation p data kw rest fuel :
  eof p = false ->
  lexes skipWhitespace ReadObject (lexer p)
        (data ++ [KeywordObject kw]) rest ->
  Forall (fun obj => isKeyword obj = false) data ->
  kw <> "BI" ->
  (length data < fuel)%nat ->
  Next skipWhitespace ReadObject fuel p
  = Some (NextOp (mkOperation kw (operands p ++ data))
                 (mkParser rest [] false)).
Proof.
  intros Heof Hlex Hdata Hkw. revert p fuel Heof Hlex.
  induction data as [|obj data IH]; intros p fuel Heof Hlex Hfuel.
  - destruct fuel as [|fuel]; [simpl in Hfuel; lia|].
    inversion Hlex as [|? b input' ? rest' ? ? Hskip Hread Hrest]; subst.
    inversion Hrest; subst.
    cbn [Next]. rewrite Heof, Hskip, Hread.
    rewrite (eqb_false_of_neq kw "BI" Hkw), app_nil_r. reflexivity.
  - destruct fuel as [|fuel]; [simpl in Hfuel; lia|].
    simpl in Hfuel. apply Forall_cons in Hdata as [Hobj Hdata].
    inversion Hlex as [|? b input' ? rest' ? ? Hskip Hread Hrest]; subst.
    cbn [Next]. rewrite Heof, Hskip, Hread.
    assert (Hstep :
      Next skipWhitespace ReadObject fuel
           (mkParser rest' (operands p ++ [obj]) false)
      = Some (NextOp (mkOperation kw (operands p ++ obj :: data))
                     (mkParser rest [] false))).
    { rewrite (IH Hdata (mkParser rest' (operands p ++ [obj]) false) fuel);
        [| reflexivity | exact Hrest | lia].
      cbn [operands]. rewrite <- app_assoc. reflexivity. }
    destruct obj; try exact Hstep. simpl in Hobj. discriminate Hobj.
Qed.

(** X19: Whatever the lexer does, an operation [Next] returns leaves the
    operand buffer empty.  An end of input that [Next] reports, by its own
    check or from [ReadByte] inside an inline image, is of one of two
    kinds.  Either the parser is marked, and every later call reports
    the end again without reading.  Or an inline image was cut short: the
    parser is not marked, all its input is read, and its operand buffer
    holds the image dictionary; then, if skipping white space on empty
    input gives empty input, the next call reports the end and marks the
    parser, the dictionary still in the buffer. *)
Theorem Next_resets_and_ends fuel : forall p,
  (forall op p', Next skipWhitespace ReadObject fuel p = Some (NextOp op p') ->
     operands p' = [])
  /\ (forall p', Next skipWhitespace ReadObject fuel p = Some (NextEOF p') ->
        (eof p' = true
         /\ forall fuel',
              Next skipWhitespace ReadObject fuel' p' = Some (NextEOF p'))
        \/ (eof p' = false /\ lexer p' = []
            /\ (exists imageDict, operands p' = [DictionaryObject imageDict])
            /\ (skipWhitespace [] = [] ->
                forall fuel',
                  Next skipWhitespace ReadObject (S fuel') p'
                  = Some (NextEOF (mkParser [] (operands p') true))))).
Proof.
  assert (Hsticky : forall q, eof q = true ->
            eof q = true
            /\ forall fuel',
                 Next skipWhitespace ReadObject fuel' q = Some (NextEOF q)).
  { intros q Hq. split; [exact Hq|].
    intros fuel'. destruct fuel'; cbn [Next]; rewrite Hq; reflexivity. }
  induction fuel as [|fuel IH]; intros p.
  - cbn [Next]. destruct (eof p) eqn:Heof; split.
    + intros op p' H. discriminate H.
    + intros p' H. inversion H; subst p'. left. apply Hsticky, Heof.
    + intros op p' H. discriminate H.
    + intros p' H. discriminate H.
  - cbn [Next]. destruct (eof p) eqn:Heof.
    { split.
      - intros op p' H. discriminate H.
      - intros p' H. inversion H; subst p'. left. apply Hsticky, Heof. }
    destruct (skipWhitespace (lexer p)) as [|b input].
    { split.
      - intros op p' H. discriminate H.
      - intros p' H. inversion H; subst p'. left. apply Hsticky. reflexivity. }
    destruct (ReadObject (b :: input)) as [[obj input1]| |].
    2,3: split; [intros op p' H | intros p' H]; discriminate H.
    destruct obj as [| | | | | | | | | |keyword];
      try apply (IH (mkParser input1 (operands p ++ [_]) false)).
    destruct (String.eqb keyword "BI").
    + destruct (skipInlineImage skipWhitespace ReadObject fuel
                  (mkParser input1 (operands p) false)) as [[p2| |]|];
        (split; [intros op p' H | intros p' H]);
        try discriminate H.
      * inversion H; reflexivity.
      * unfold inlineImageFailure in H.
        destruct (readImageDict skipWhitespace ReadObject fuel ∅
                    (lexer (mkParser input1 (operands p) false)))
          as [[[imageDict rest]| |]|]; discriminate H.
      * unfold inlineImageFailure in H.
        destruct (readImageDict skipWhitespace ReadObject fuel ∅
                    (lexer (mkParser input1 (operands p) false)))
          as [[[imageDict rest]| |]|]; try discriminate H.
        inversion H; subst p'. right. cbn [eof lexer operands].
        split; [reflexivity|]. split; [reflexivity|].
        split; [eexists; reflexivity|].
        intros Hskip fuel'. cbn [Next eof lexer operands].
        rewrite Hskip. reflexivity.
    + split; [intros op p' H | intros p' H]; try discriminate H.
      inversion H; reflexivity.
Qed.

(** On the keyword [BI], when the dictionary is read and the data runs out
    before a marker, [Next] hands back the [io.EOF] of the reader: the
    parser is not marked and keeps the dictionary as its operands. *)
Lemma Next_inline_image_cut_short fuel p input1 imageDict input2 :
  eof p = false ->
  skipWhitespace (lexer p) <> [] ->
  ReadObject (skipWhitespace (lexer p)) = Ok (KeywordObject "BI", input1) ->
  readImageDict skipWhitespace ReadObject fuel ∅ input1
  = Some (Ok (imageDict, input2)) ->
  skipImageData input2 = None ->
  Next skipWhitespace ReadObject (S fuel) p
  = Some (NextEOF (mkParser [] [DictionaryObject imageDict] false)).
Proof.
  intros Heof Hne Hread Hdict Hdata. cbn [Next]. rewrite Heof.
  destruct (skipWhitespace (lexer p)) as [|b input] eqn:Hskip;
    [congruence|].
  rewrite Hread. cbn [String.eqb Ascii.eqb Bool.eqb].
  unfold skipInlineImage, inlineImageFailure. cbn [lexer eof].
  rewrite Hdict, Hdata. reflexivity.
Qed.
End TokenProperties.

Lemma sample_lexes :
  lexes sampleSkipWhitespace sampleReadObject (bytes_of_string "1 2 m 3")
    [NameObject "1"; NameObject "2"; KeywordObject "m"; NameObject "3"] [].
Proof.
  repeat (eapply lexes_token; [reflexivity | reflexivity |]).
  apply lexes_done.
Defined.

Lemma Parse_keeps_tokens_witness :
  exists ops trailing,
    Parse sampleSkipWhitespace sampleReadObject 5 (bytes_of_string "1 2 m 3")
    = Some (Ok ops)
    /\ [NameObject "1"; NameObject "2"; KeywordObject "m"; NameObject "3"]
       = (flat_map opTokens ops ++ trailing)%list.
Proof.
  destruct (Parse_keeps_tokens sampleSkipWhitespace sampleReadObject
              (bytes_of_string "1 2 m 3") _ [] 5 sample_lexes eq_refl)
    as (ops & trailing & Hparse & Htokens & _).
  - simpl. lia.
  - exists ops, trailing. split; assumption.
Defined.

Lemma sample_lexes_operation :
  lexes sampleSkipWhitespace sampleReadObject (bytes_of_string "1 2 m 3")
    ([NameObject "1"; NameObject "2"] ++ [KeywordObject "m"])
    (bytes_of_string " 3").
Proof.
  repeat (eapply lexes_token; [reflexivity | reflexivity |]).
  apply lexes_done.
Defined.

Lemma Next_returns_operation_witness :
  Next sampleSkipWhitespace sampleReadObject 3
       (mkParser (bytes_of_string "1 2 m 3") [] false)
  = Some (NextOp (mkOperation "m" [NameObject "1"; NameObject "2"])
                 (mkParser (bytes_of_string " 3") [] false)).
Proof.
  apply (Next_returns_operation sampleSkipWhitespace sampleReadObject
           (mkParser (bytes_of_string "1 2 m 3") [] false)
           [NameObject "1"; NameObject "2"] "m" (bytes_of_string " 3") 3).
  - reflexivity.
  - exact sample_lexes_operation.
  - repeat constructor.
  - discriminate.
  - simpl. lia.
Defined.

Lemma Next_resets_and_ends_witness :
  Next sampleSkipWhitespace sampleReadObjectBI 3 cutShortImage
  = Some (NextEOF (mkParser [] [DictionaryObject ∅] false))
  /\ Next sampleSkipWhitespace sampleReadObjectBI 1
         (mkParser [] [DictionaryObject ∅] false)
     = Some (NextEOF (mkParser [] [DictionaryObject ∅] true)).
Proof.
  assert (Hrun : Next sampleSkipWhitespace sampleReadObjectBI 3 cutShortImage
                 = Some (NextEOF (mkParser [] [DictionaryObject ∅] false)))
    by (vm_compute; reflexivity).
  split; [exact Hrun|].
  destruct (proj2 (Next_resets_and_ends sampleSkipWhitespace
                     sampleReadObjectBI 3 cutShortImage) _ Hrun)
    as [[Heof _] | (_ & _ & _ & Hnext)].
  - discriminate Heof.
  - exact (Hnext eq_refl 0%nat).
Defined.

(** ** Inline-image data: the whole behaviour of the scan *)

Lemma markerAt_tail b pre rest input :
  markerAt (b :: pre) rest (b :: input) -> markerAt pre rest input.
Proof. intros [Heq Hends]. split; [|exact Hends]. inversion Heq. reflexivity. Qed.

Lemma scanEI_none input :
  scanEI input = None -> forall pre rest, ~ markerAt pre rest input.
Proof.
  remember (length input) as n eqn:Hn. revert input Hn.
  induction n as [n IH] using lt_wf_ind.
  intros input Hn Hscan pre rest Hmark.
  destruct input as [|b input1].
  { destruct Hmark as [Heq _]. destruct pre; discriminate Heq. }
  simpl in Hn.
  destruct pre as [|c pre].
  { destruct Hmark as [Heq Hends]. simpl in Heq. rewrite Heq in Hscan.
    rewrite (scanEI_marker rest Hends) in Hscan. discriminate Hscan. }
  assert (c = b) as -> by (destruct Hmark as [Heq _]; inversion Heq; reflexivity).
  apply markerAt_tail in Hmark.
  assert (Hvia1 : scanEI input1 = None -> False).
  { intros H1. apply (IH (length input1) ltac:(lia) input1 eq_refl H1 pre rest).
    exact Hmark. }
  cbn [scanEI] in Hscan.
  destruct (Byte.eqb b "E"); [|auto].
  destruct input1 as [|next input2]; [auto|].
  destruct (Byte.eqb next "I") eqn:HI; [|auto].
  apply Byte.byte_dec_bl in HI. subst next.
  destruct input2 as [|after input3]; [discriminate Hscan|].
  destruct (isWhitespace after || isDelimiter after); [discriminate Hscan|].
  destruct pre as [|c pre].
  { destruct Hmark as [Heq _]. discriminate Heq. }
  assert (c = "I"%byte) as ->
    by (destruct Hmark as [Heq _]; inversion Heq; reflexivity).
  apply markerAt_tail in Hmark.
  apply (IH (length (after :: input3)) ltac:(simpl in *; lia)
            (after :: input3) eq_refl Hscan pre rest Hmark).
Qed.

Lemma noMarkerBefore_cons b pre input :
  (b <> "E"%byte \/ match input with
                    | next :: _ => next <> "I"%byte
                    | [] => True
                    end) ->
  noMarkerBefore pre input -> noMarkerBefore (b :: pre) (b :: input).
Proof.
  intros Hhead Hno pre1 rest1 Heq Hlen.
  destruct pre1 as [|c pre1].
  - simpl in Heq. inversion Heq; subst. destruct Hhead as [Hb | Hnext];
      [congruence | simpl in Hnext; congruence].
  - inversion Heq; subst. apply (Hno pre1 rest1 eq_refl).
    simpl in Hlen. lia.
Qed.

Lemma scanEI_first_found input : forall rest,
  scanEI input = Some rest ->
  exists pre, markerAt pre rest input /\ noMarkerBefore pre input.
Proof.
  remember (length input) as n eqn:Hn. revert input Hn.
  induction n as [n IH] using lt_wf_ind. intros input Hn rest Hscan.
  destruct input as [|b input1]; [discriminate|].
  simpl in Hscan, Hn.
  destruct (Byte.eqb b "E") eqn:HE.
  - apply Byte.byte_dec_bl in HE. subst b.
    destruct input1 as [|next input2]; [discriminate|].
    destruct (Byte.eqb next "I") eqn:HI.
    + apply Byte.byte_dec_bl in HI. subst next.
      destruct (markerEnds input2) eqn:Hends.
      * exists []. assert (rest = input2) as ->.
        { destruct input2 as [|after input3]; simpl in *.
          - congruence.
          - rewrite Hends in Hscan. congruence. }
        split; [split; [reflexivity | exact Hends]|].
        intros pre1 rest1 _ Hlen. simpl in Hlen. lia.
      * destruct input2 as [|after input3]; [discriminate|].
        simpl in Hends. rewrite Hends in Hscan.
        destruct (IH (length (after :: input3)) ltac:(simpl in *; lia)
                     (after :: input3) eq_refl rest Hscan)
          as (pre & [Heq Hok] & Hno).
        exists ("E"%byte :: "I"%byte :: pre). split.
        -- split; [|exact Hok]. simpl. rewrite Heq. reflexivity.
        -- intros pre1 rest1 Heq1 Hlen.
           destruct pre1 as [|c1 [|c2 pre1]].
           ++ simpl in Heq1. inversion Heq1; subst rest1. exact Hends.
           ++ simpl in Heq1. inversion Heq1.
           ++ inversion Heq1 as [[Hc1 Hc2 Htail]].
              apply (Hno pre1 rest1 Htail). simpl in Hlen. lia.
    + destruct (IH (length (next :: input2)) ltac:(simpl in *; lia)
                   (next :: input2) eq_refl rest Hscan)
        as (pre & [Heq Hok] & Hno).
      exists ("E"%byte :: pre). split.
      * split; [|exact Hok]. simpl. rewrite Heq. reflexivity.
      * apply noMarkerBefore_cons; [|exact Hno].
        right. intros ->. discriminate HI.
  - destruct (IH (length input1) ltac:(lia) input1 eq_refl rest Hscan)
      as (pre & [Heq Hok] & Hno).
    exists (b :: pre). split.
    + split; [|exact Hok]. simpl. rewrite Heq. reflexivity.
    + apply noMarkerBefore_cons; [|exact Hno].
      left. intros ->. discriminate HE.
Qed.

(** X20: The scan returns what follows the first [EI] that is itself followed
    by the end of the data, white space or a delimiter, and nothing else:
    the byte before the marker is never looked at. *)
Theorem scanEI_stops_at_first_marker input rest :
  scanEI input = Some rest <->
  exists pre, markerAt pre rest input /\ noMarkerBefore pre input.
Proof.
  split.
  - apply scanEI_first_found.
  - intros (pre & [-> Hends] & Hno). apply scanEI_first; assumption.
Qed.

(** X21: The scan fails, with the reader's end-of-data error, exactly when the
    data has no such marker; a marker always costs at least its two bytes. *)
Theorem scanEI_fails_without_marker input :
  (scanEI input = None <-> forall pre rest, ~ markerAt pre rest input)
  /\ forall rest, scanEI input = Some rest ->
                  (length rest + 2 <= length input)%nat.
Proof.
  split; [split|].
  - apply scanEI_none.
  - intros Hno. destruct (scanEI input) as [rest|] eqn:Hscan; [|reflexivity].
    destruct (scanEI_sound input rest Hscan) as [pre Hmark].
    exfalso. exact (Hno pre rest Hmark).
  - intros rest Hscan.
    destruct (scanEI_sound input rest Hscan) as (pre & -> & _).
    rewrite length_app. simpl. lia.
Qed.

(** X22: After [ID] at most one line end is taken: a line feed, a carriage
    return, or the two in that order.  Any other first byte is left in
    place, and an empty input is the reader's error. *)
Theorem consumeEOL_takes_one_line_end input :
  (consumeEOL input = None <-> input = [])
  /\ forall rest,
       consumeEOL input = Some rest ->
       exists eol,
         input = (eol ++ rest)%list
         /\ (eol = [] \/ eol = [x0a]%byte \/ eol = [x0d]%byte
             \/ eol = [x0d; x0a]%byte)
         /\ (eol = [] -> exists b, head input = Some b /\ isEOL b = false)
         /\ (eol = [x0d]%byte -> head rest <> Some x0a%byte).
Proof.
  split.
  - split.
    + destruct input as [|b [|next rest]]; [reflexivity| |]; simpl;
        repeat match goal with
               | |- context [if ?c then _ else _] => destruct c
               end; discriminate.
    + intros ->. reflexivity.
  - intros rest Hrun.
    destruct input as [|b input1]; [discriminate|].
    cbn [consumeEOL] in Hrun.
    destruct (Byte.eqb b x0d) eqn:Hcr.
    + apply Byte.byte_dec_bl in Hcr. subst b.
      destruct input1 as [|next input2].
      * inversion Hrun; subst rest. exists [x0d]%byte.
        split; [reflexivity|]. split; [auto|].
        split; [intros H; discriminate H | intros _ H; discriminate H].
      * destruct (Byte.eqb next x0a) eqn:Hlf.
        -- apply Byte.byte_dec_bl in Hlf. subst next.
           inversion Hrun; subst rest. exists [x0d; x0a]%byte.
           split; [reflexivity|]. split; [auto 6|].
           split; intros H; discriminate H.
        -- inversion Hrun; subst rest. exists [x0d]%byte.
           split; [reflexivity|]. split; [auto|].
           split; [intros H; discriminate H|].
           intros _ H. inversion H; subst next. discriminate Hlf.
    + destruct (Byte.eqb b x0a) eqn:Hlf; simpl in Hrun.
      * apply Byte.byte_dec_bl in Hlf. subst b.
        inversion Hrun; subst rest. exists [x0a]%byte.
        split; [reflexivity|]. split; [auto|].
        split; intros H; discriminate H.
      * inversion Hrun; subst rest. exists [].
        split; [reflexivity|]. split; [auto|]. split.
        -- intros _. exists b. split; [reflexivity|].
           unfold isEOL. rewrite Hcr, Hlf. reflexivity.
        -- intros H; discriminate H.
Qed.

Lemma scanEI_stops_at_first_marker_witness :
  exists pre,
    markerAt pre (bytes_of_string " y") (bytes_of_string "xEI y")
    /\ noMarkerBefore pre (bytes_of_string "xEI y").
Proof.
  apply (scanEI_stops_at_first_marker (bytes_of_string "xEI y")
           (bytes_of_string " y")).
  reflexivity.
Defined.

Lemma scanEI_fails_without_marker_witness :
  (length (bytes_of_string " y") + 2
   <= length (bytes_of_string "xEI y"))%nat.
Proof.
  apply (scanEI_fails_without_marker (bytes_of_string "xEI y")).
  reflexivity.
Defined.

Lemma consumeEOL_takes_one_line_end_witness :
  exists eol,
    [x0d; x0a; x0a; "a"]%byte = (eol ++ [x0a; "a"]%byte)%list
    /\ (eol = [] \/ eol = [x0a]%byte \/ eol = [x0d]%byte
        \/ eol = [x0d; x0a]%byte).
Proof.
  destruct (consumeEOL_takes_one_line_end [x0d; x0a; x0a; "a"]%byte)
    as [_ Htakes].
  destruct (Htakes [x0a; "a"]%byte eq_refl) as (eol & Heq & Hcases & _).
  exists eol. split; assumption.
Defined.

(** ** Inline-image dictionaries *)

Section InlineImageProperties.
Variable skipWhitespace : list byte -> list byte.
Variable ReadObject : list byte -> Result (Object * list byte).

Lemma readImageDict_pairs pairs : forall input imageDict fuel afterID,
  lexes skipWhitespace ReadObject input
        (pairTokens pairs ++ [KeywordObject "ID"]) afterID ->
  (length pairs < fuel)%nat ->
  readImageDict skipWhitespace ReadObject fuel imageDict input
  = Some (Ok (fold_left (fun m kv => <[kv.1 := kv.2]> m) pairs imageDict,
              afterID)).
Proof.
  induction pairs as [|[key val] pairs IH];
    intros input imageDict fuel afterID Hlex Hfuel.
  - destruct fuel as [|fuel]; [simpl in Hfuel; lia|].
    inversion Hlex as [|? b input' ? rest ? ? Hskip Hread Hrest]; subst.
    inversion Hrest; subst.
    cbn [readImageDict]. rewrite Hskip, Hread. reflexivity.
  - destruct fuel as [|fuel]; [simpl in Hfuel; lia|].
    simpl in Hfuel. cbn [pairTokens flat_map app fst snd] in Hlex.
    inversion Hlex as [|? b input' ? rest ? ? Hskip Hread Hrest]; subst.
    inversion Hrest as [|? b2 input2 ? rest2 ? ? Hskip2 Hread2 Hrest2]; subst.
    cbn [readImageDict]. rewrite Hskip, Hread, Hskip2, Hread2.
    rewrite (IH rest2 (<[key := val]> imageDict) fuel afterID Hrest2) by lia.
    reflexivity.
Qed.

Lemma fold_insert_list_to_map (pairs : list (string * Object)) :
  fold_left (fun m kv => <[kv.1 := kv.2]> m) pairs (∅ : gmap string Object)
  = list_to_map (reverse pairs).
Proof.
  unfold reverse. rewrite <- rev_alt. symmetry.
  apply (fold_left_rev_right
           (fun (kv : string * Object) (m : gmap string Object) =>
              <[kv.1 := kv.2]> m)).
Qed.

(** X23: When the lexer reads name/value pairs and then [ID], and the data
    after [ID] has its marker, [skipInlineImage] succeeds: the parser's
    operand buffer is replaced by the one dictionary of those pairs, in
    which a name given twice keeps its last value, and reading resumes
    after the marker.  A value may be any object, a keyword included. *)
Theorem skipInlineImage_reads_pairs p pairs afterID rest fuel :
  lexes skipWhitespace ReadObject (lexer p)
        (pairTokens pairs ++ [KeywordObject "ID"]) afterID ->
  skipImageData afterID = Some rest ->
  (length pairs < fuel)%nat ->
  skipInlineImage skipWhitespace ReadObject fuel p
  = Some (Ok (mkParser rest
                [DictionaryObject (list_to_map (reverse pairs))] (eof p))).
Proof.
  intros Hlex Hdata Hfuel. unfold skipInlineImage.
  rewrite (readImageDict_pairs pairs (lexer p) ∅ fuel afterID Hlex Hfuel).
  rewrite Hdata, fold_insert_list_to_map. reflexivity.
Qed.

(** X24: A token in key position that is neither a name nor [ID] ends the
    dictionary with an error. *)
Theorem readImageDict_rejects_other_keys input b input' obj rest dict fuel :
  skipWhitespace input = b :: input' ->
  ReadObject (b :: input') = Ok (obj, rest) ->
  (forall name, obj <> NameObject name) ->
  obj <> KeywordObject "ID" ->
  readImageDict skipWhitespace ReadObject (S fuel) dict input = Some Err.
Proof.
  intros Hskip Hread Hname Hid. cbn [readImageDict]. rewrite Hskip, Hread.
  destruct obj; try reflexivity.
  - exfalso. eapply Hname. reflexivity.
  - destruct (String.eqb s "ID") eqn:Heq; [|reflexivity].
    apply String.eqb_eq in Heq. subst s. contradiction.
Qed.
End InlineImageProperties.

Lemma sample_lexes_dict :
  lexes sampleSkipWhitespace sampleReadObjectID
    (bytes_of_string ("1 2 1 3 ID" ++ NL ++ "xEI Q"))
    (pairTokens [("1", NameObject "2"); ("1", NameObject "3")]
     ++ [KeywordObject "ID"])
    (bytes_of_string (NL ++ "xEI Q")).
Proof.
  repeat (eapply lexes_token; [reflexivity | reflexivity |]).
  apply lexes_done.
Defined.

Lemma skipInlineImage_reads_pairs_witness :
  skipInlineImage sampleSkipWhitespace sampleReadObjectID 3
    (mkParser (bytes_of_string ("1 2 1 3 ID" ++ NL ++ "xEI Q")) [num 7] false)
  = Some (Ok (mkParser (bytes_of_string " Q")
                [DictionaryObject (<["1" := NameObject "3"]> ∅)] false)).
Proof.
  rewrite (skipInlineImage_reads_pairs sampleSkipWhitespace sampleReadObjectID
             (mkParser (bytes_of_string ("1 2 1 3 ID" ++ NL ++ "xEI Q"))
                       [num 7] false)
             [("1", NameObject "2"); ("1", NameObject "3")]
             (bytes_of_string (NL ++ "xEI Q")) (bytes_of_string " Q") 3
             sample_lexes_dict eq_refl ltac:(simpl; lia)).
  vm_compute. reflexivity.
Defined.

Lemma readImageDict_rejects_other_keys_witness :
  readImageDict sampleSkipWhitespace sampleReadObject 1 ∅
    (bytes_of_string " m 1")
  = Some Err.
Proof.
  apply (readImageDict_rejects_other_keys sampleSkipWhitespace
           sampleReadObject (bytes_of_string " m 1") "m"%byte
           (bytes_of_string " 1") (KeywordObject "m") (bytes_of_string " 1")
           ∅ 0); try reflexivity; discriminate.
Defined.

(** ** ExtractText: a stream that does not parse *)

Section ExtractTextErrors.
Variable Resolve : option Object -> option Object.
Variable Parse : list byte -> Result (list Operation).

Lemma runStreams_parse_error before : forall e text stream after,
  runStreams Parse e before = Ok text ->
  Parse (stream_Data stream) = Err ->
  runStreams Parse e (before ++ stream :: after) = Err.
Proof.
  induction before as [|s before IH]; intros e text stream after Hrun Herr.
  - simpl. rewrite Herr. reflexivity.
  - simpl in Hrun |- *.
    destruct (Parse (stream_Data s)) as [ops| |]; try discriminate Hrun.
    destruct (processOps e ops) as [e'|]; [|discriminate Hrun].
    apply (IH e' text). exact Hrun. exact Herr.
Qed.

(** X25: When the streams of a [/Contents] array run without trouble up to one
    that does not parse, [ExtractText] returns the error and none of the
    text of the streams before it; the streams after it are not read. *)
Theorem ExtractText_parse_error e arr before stream after text :
  Resolve (page e !! "/Contents") = Some (ArrayObject arr) ->
  omap (fun ref => asStream (Resolve (Some ref))) arr
  = (before ++ stream :: after)%list ->
  runStreams Parse e before = Ok text ->
  Parse (stream_Data stream) = Err ->
  ExtractText Resolve Parse e = Err.
Proof.
  intros Hcontents Hstreams Hrun Herr. unfold ExtractText.
  rewrite Hcontents, collectStreams_array, Hstreams.
  apply (runStreams_parse_error before e text). exact Hrun. exact Herr.
Qed.
End ExtractTextErrors.

Lemma ExtractText_parse_error_witness :
  ExtractText sampleResolve sampleParse
    (mkExtractor
       (pageWith (ArrayObject [StreamObject ∅ (bytes_of_string "Hi");
                               StreamObject ∅ []]))
       (mkGraphicsState IdentityMatrix) [] NewTextState ∅ 0 0 "")
  = Err.
Proof.
  apply (ExtractText_parse_error sampleResolve sampleParse _
           [StreamObject ∅ (bytes_of_string "Hi"); StreamObject ∅ []]
           [mkStream ∅ (bytes_of_string "Hi")] (mkStream ∅ []) [] "Hi");
    vm_compute; reflexivity.
Defined.

(** ** The loader: metadata and full documents *)

Section LoaderFurther.
Variable Parse : list byte -> Result (list Operation).
Variable loadFont : gmap string Object -> Font.

(** X26: In every document the loader returns, [Encrypted] is false; the four
    strings are read from the Info dictionary only where it holds a literal
    string under the key, and are empty when [GetInfo] fails or gives
    nothing, which never fails the load. *)
Theorem LoadPDF_metadata r doc :
  LoadPDF Parse loadFont (Ok r) = Ok doc ->
  Encrypted (doc_Metadata doc) = false
  /\ (forall info, GetInfo r = Ok (Some info) ->
        Title (doc_Metadata doc) = infoString info "/Title"
        /\ Author (doc_Metadata doc) = infoString info "/Author"
        /\ Creator (doc_Metadata doc) = infoString info "/Creator"
        /\ Producer (doc_Metadata doc) = infoString info "/Producer")
  /\ (GetInfo r = Err \/ GetInfo r = Ok None ->
      doc_Metadata doc = mkMetadata "" "" "" "" false).
Proof.
  unfold LoadPDF, loadDocument. intros Hdoc.
  destruct (GetInfo r) as [[info|]| |] eqn:Hinfo; try discriminate Hdoc;
    destruct (NumPages r <? 0)%Z; try discriminate Hdoc;
    destruct (pageLoop Parse loadFont r (seqZ 0 (NumPages r)) [])
      as [pages| |]; try discriminate Hdoc;
    inversion Hdoc; subst doc; cbn [doc_Metadata extractMetadata];
    (split; [reflexivity|]); split;
    try (intros info' Heq; inversion Heq; subst; auto; fail);
    try (intros info' Heq; discriminate Heq);
    try (intros [Heq | Heq]; discriminate Heq);
    try (intros _; reflexivity).
Qed.

Lemma omap_all_emitted r (indices : list Z) :
  (forall i, i ∈ indices -> exists pg, loadPage Parse loadFont r i = Ok pg) ->
  PageNumber <$> omap (emittedPage Parse loadFont r) indices
  = Z.add 1 <$> indices.
Proof.
  induction indices as [|i rest IH]; intros Hall; [reflexivity|].
  destruct (Hall i ltac:(left)) as [pg Hpg].
  cbn [omap list_omap]. unfold emittedPage at 1. rewrite Hpg.
  cbn [fmap list_fmap]. f_equal.
  - destruct (loadPage_record Parse loadFont r i pg Hpg) as [-> _]. lia.
  - apply IH. intros j Hj. apply Hall. right. exact Hj.
Qed.

(** X27: When every page loads, the document has one record per page and the
    page numbers are 1 up to the number of pages, in order. *)
Theorem LoadPDF_all_pages r doc :
  (forall i, (0 <= i < NumPages r)%Z ->
     exists pg, loadPage Parse loadFont r i = Ok pg) ->
  LoadPDF Parse loadFont (Ok r) = Ok doc ->
  PageNumber <$> Pages doc = seqZ 1 (NumPages r)
  /\ length (Pages doc) = Z.to_nat (NumPages r).
Proof.
  intros Hall Hdoc.
  assert (Hnums : PageNumber <$> Pages doc = seqZ 1 (NumPages r)).
  { rewrite (LoadPDF_pages Parse loadFont r doc Hdoc).
    rewrite omap_all_emitted.
    - apply fmap_add_seqZ.
    - intros i Hi. apply Hall. apply elem_of_seqZ in Hi. lia. }
  split; [exact Hnums|].
  apply (f_equal length) in Hnums.
  rewrite length_fmap, length_seqZ in Hnums. exact Hnums.
Qed.
End LoaderFurther.

Lemma LoadPDF_metadata_witness :
  exists doc,
    LoadPDF sampleParse sampleLoadFont (Ok sampleReader) = Ok doc
    /\ Encrypted (doc_Metadata doc) = false
    /\ doc_Metadata doc = mkMetadata "" "" "" "" false.
Proof.
  eexists. split; [vm_compute; reflexivity|].
  destruct (LoadPDF_metadata sampleParse sampleLoadFont sampleReader _
              ltac:(vm_compute; reflexivity)) as (Henc & _ & Hempty).
  split; [exact Henc|]. apply Hempty. right. reflexivity.
Defined.

Lemma LoadPDF_all_pages_witness :
  PageNumber <$>
    [mkPage 1 "Hi" 2 0 0; mkPage 2 "Hi" 2 0 0] = seqZ 1 2.
Proof.
  apply (LoadPDF_all_pages sampleParse sampleLoadFont
           (mkReader 2 Err
              (fun _ => Ok (pageWith (StreamObject ∅ (bytes_of_string "Hi"))))
              sampleResolve)
           (mkDocument (mkMetadata "" "" "" "" false)
              [mkPage 1 "Hi" 2 0 0; mkPage 2 "Hi" 2 0 0])).
  - intros i _. eexists. vm_compute. reflexivity.
  - vm_compute. reflexivity.
Defined.
